(** * Sux4J, [c/mph.c]: read side of a chunked minimal perfect hash function

    A shallow embedding of the C reader of Sux4J's serialized minimal perfect
    hash functions.  Unsigned 64-bit values are integers of [Z] reduced modulo
    [2^64] where the C operators wrap; [int] values are reduced to the signed
    32-bit range where the C code stores into an [int]; an array is the list of
    its words, and a read outside of it has no defined result ([None]). *)

From Stdlib Require Import ZArith List Lia Bool QArith Qround Permutation.
From Stdlib.Strings Require Import Byte.
Import ListNotations.
Local Open Scope Z_scope.

(** ** Machine integers *)

Module Mach.

Definition two64 : Z := 2 ^ 64.

(** [uint64_t] arithmetic wraps modulo [2^64]. *)
Definition u64 (x : Z) : Z := x mod two64.
Definition add64 (a b : Z) : Z := u64 (a + b).
Definition sub64 (a b : Z) : Z := u64 (a - b).
Definition mul64 (a b : Z) : Z := u64 (a * b).
Definition shl64 (a n : Z) : Z := u64 (Z.shiftl a n).
Definition shr64 (a n : Z) : Z := Z.shiftr a n.
Definition not64 (a : Z) : Z := two64 - 1 - a.

(** Storing into an [int] (32 bits, two's complement; gcc reduces an
    out-of-range value modulo [2^32]). *)
Definition to_int (x : Z) : Z := (x + 2 ^ 31) mod 2 ^ 32 - 2 ^ 31.

(** Returning a [uint64_t] as [int64_t]. *)
Definition to_int64 (x : Z) : Z := (x + 2 ^ 63) mod two64 - 2 ^ 63.

(** An [int] operand of a [uint64_t] operator is converted to [uint64_t]. *)
Definition of_int (x : Z) : Z := u64 x.

Definition is_u64 (x : Z) : Prop := 0 <= x < two64.
Definition is_int (x : Z) : Prop := - 2 ^ 31 <= x < 2 ^ 31.

(** [int + int]: signed overflow is undefined. *)
Definition int_add (a b : Z) : option Z :=
  if (- 2 ^ 31 <=? a + b) && (a + b <? 2 ^ 31) then Some (a + b) else None.

(** Number of [true] among [P a], [P (a+1)], ..., [P (a+n-1)]. *)
Fixpoint count_from (P : Z -> bool) (a : Z) (n : nat) : Z :=
  match n with
  | O => 0
  | S k => Z.b2z (P a) + count_from P (a + 1) k
  end.

(** Number of [i] in [[a, b)] with [P i]. *)
Definition range_count (P : Z -> bool) (a b : Z) : Z :=
  count_from P a (Z.to_nat (b - a)).

(** [__builtin_popcountll]: the number of set bits of a 64-bit word. *)
Definition popcountll (x : Z) : Z := count_from (Z.testbit x) 0 64.

(** Leading zero bits below position [n], scanning down from bit [n-1]. *)
Fixpoint clz_from (n : nat) (x : Z) : Z :=
  match n with
  | O => 0
  | S k => if Z.testbit x (Z.of_nat k) then 0 else 1 + clz_from k x
  end.

(** [__builtin_clzll]: leading zero bits of a 64-bit word; the builtin's
    result is undefined at [0]. *)
Definition clzll (x : Z) : option Z :=
  if x =? 0 then None else Some (clz_from 64 x).

(** The bit length of a non-negative integer: [0] for [0], and
    [floor(log2 x) + 1] otherwise. *)
Definition bit_length (x : Z) : Z := if x =? 0 then 0 else Z.log2 x + 1.

End Mach.
Import Mach.

(** ** Undefined behaviour as [option] *)

Definition bind {A B : Type} (c : option A) (k : A -> option B) : option B :=
  match c with
  | Some a => k a
  | None => None
  end.

Notation "x <- c ;; k" := (bind c (fun x => k))
  (at level 61, c at next level, right associativity).
Notation "' pat <- c ;; k" := (bind c (fun x => match x with pat => k end))
  (at level 61, pat pattern, c at next level, right associativity).

(** [a[i]]: defined only inside the array. *)
Definition idx (a : list Z) (i : Z) : option Z :=
  if i <? 0 then None else nth_error a (Z.to_nat i).

(** ** The rank operator *)

(** [_count_nonzero_pairs]. *)
Definition _count_nonzero_pairs (x : Z) : Z :=
  popcountll (Z.land (Z.lor x (shr64 x 1)) 0x5555555555555555).

(** The loop [while (block < end_block) pairs += _count_nonzero_pairs(array[block++])],
    run for its [n = end_block - block] iterations. *)
Fixpoint count_blocks (n : nat) (array : list Z) (block pairs : Z) : option (Z * Z) :=
  match n with
  | O => Some (pairs, block)
  | S k =>
      w <- idx array block ;;
      count_blocks k array (block + 1) (add64 pairs (of_int (_count_nonzero_pairs w)))
  end.

(** [count_nonzero_pairs(start, end, array)]. *)
Definition count_nonzero_pairs (start end_ : Z) (array : list Z) : option Z :=
  let block := to_int (start / 32) in
  let end_block := to_int (end_ / 32) in
  let start_offset := to_int (start mod 32) in
  let end_offset := to_int (end_ mod 32) in
  if block =? end_block then
    w <- idx array block ;;
    Some (of_int (_count_nonzero_pairs
            (shr64 (Z.land w (sub64 (shl64 1 (end_offset * 2)) 1)) (start_offset * 2))))
  else
    '(pairs, block) <-
       (if negb (start_offset =? 0) then
          w <- idx array block ;;
          block' <- int_add block 1 ;;
          Some (add64 0 (of_int (_count_nonzero_pairs (shr64 w (start_offset * 2)))), block')
        else Some (0, block)) ;;
    '(pairs, block) <- count_blocks (Z.to_nat (end_block - block)) array block pairs ;;
    if negb (end_offset =? 0) then
      w <- idx array block ;;
      Some (add64 pairs (of_int (_count_nonzero_pairs
                                   (Z.land w (sub64 (shl64 1 (end_offset * 2)) 1)))))
    else Some pairs.

(** Whether the [j]-th 2-bit group of the word [w] is not [0b00]. *)
Definition pair_nonzero (w : Z) (j : Z) : bool :=
  Z.testbit w (2 * j) || Z.testbit w (2 * j + 1).

(** The 2-bit group of vertex [i]: bits [2i] and [2i+1] of the label store,
    low-to-high inside 64-bit words of 32 groups each. *)
Definition label_nonzero (labels : list Z) (i : Z) : bool :=
  let w := nth (Z.to_nat (i / 32)) labels 0 in
  Z.testbit w (2 * (i mod 32)) || Z.testbit w (2 * (i mod 32) + 1).

(** The 2-bit label of vertex [i]. *)
Definition label_value (labels : list Z) (i : Z) : Z :=
  Z.land (Z.shiftr (nth (Z.to_nat (i / 32)) labels 0) (2 * (i mod 32))) 3.

(** The number of vertices in [[start, end)] whose 2-bit group is not [0b00]. *)
Definition nonzero_labels (start end_ : Z) (labels : list Z) : Z :=
  range_count (label_nonzero labels) start end_.

Definition words_u64 (a : list Z) : Prop := Forall is_u64 a.

(** ** The index *)

(** Modelled from the spec: the struct [mph] of [mph.h], which [mph.c] only
    includes.  Its fields are the ones [load_mph] fills, in the order read;
    [chunk_shift] is the spec's 32-bit field ("stored as a u64 truncated to
    u32").  An array pointer is the list of the words it points to, the null
    pointer being the empty list: no element of either can be read. *)
Record mph : Type := Build_mph {
  size : Z;
  chunk_shift : Z;
  global_seed : Z;
  edge_offset_and_seed_length : Z;
  edge_offset_and_seed : list Z;
  array_length : Z;
  array : list Z
}.

(** ** Vertex offsets *)

(** [#define OFFSET_MASK (UINT64_C(-1) >> 8)]. *)
Definition OFFSET_MASK : Z := shr64 (u64 (-1)) 8.

(** [#define C_TIMES_256 (int)(floor((1.09 + 0.01) * 256))], evaluated over
    the rationals: the product is [281.6], and the rounding of the two
    [double] literals and of their sum moves it by less than [10^-12]. *)
Definition C_TIMES_256 : Z := to_int (Qfloor ((1.09 + 0.01) * 256)%Q).

(** [vertex_offset]. *)
Definition vertex_offset (edge_offset_seed : Z) : Z :=
  shr64 (mul64 (Z.land edge_offset_seed OFFSET_MASK) (of_int C_TIMES_256)) 8.

(** The spec's rescaling of a directory entry: [floor(field * R / 256)] with
    [field] the low 56 bits and [R = floor(1.10 * 256)]. *)
Definition offset_field (entry : Z) : Z := entry mod 2 ^ 56.
Definition R_spec : Z := Qfloor (1.10 * 256)%Q.
Definition vertex_offset_spec (entry : Z) : Z := offset_field entry * R_spec / 256.

(** ** Labels *)

(** [get_2bit_value]. *)
Definition get_2bit_value (array : list Z) (pos : Z) : option Z :=
  let pos := mul64 pos 2 in
  w <- idx array (pos / 64) ;;
  Some (to_int (Z.land (shr64 w (pos mod 64)) 3)).

(** ** Evaluation *)

Definition hash256 : Type := (Z * Z * Z * Z)%type.

Definition word0 (h : hash256) : Z := let '(a, _, _, _) := h in a.
Definition word1 (h : hash256) : Z := let '(_, b, _, _) := h in b.
Definition word2 (h : hash256) : Z := let '(_, _, c, _) := h in c.


(** The element [e[i]] of an [int e[3]]. *)
Definition sel3 (e : Z * Z * Z) (i : Z) : option Z :=
  let '(e0, e1, e2) := e in
  if i =? 0 then Some e0 else if i =? 1 then Some e1 else if i =? 2 then Some e2 else None.

(** The native encoding of a [uint64_t] object: eight bytes, low byte first. *)
Definition byte_of_Z (z : Z) : byte :=
  match Byte.of_N (Z.to_N (z mod 256)) with
  | Some b => b
  | None => x00
  end.
Definition Z_of_byte (b : byte) : Z := Z.of_N (Byte.to_N b).

Fixpoint le_split (n : nat) (w : Z) : list byte :=
  match n with
  | O => []
  | S k => byte_of_Z w :: le_split k (w / 256)
  end.

Fixpoint le_combine (l : list byte) : Z :=
  match l with
  | [] => 0
  | b :: t => Z_of_byte b + 256 * le_combine t
  end.

Section Evaluate.

(** The hash primitive of [spooky.h], which [mph.c] only includes:
    [spooky_short(key, len, seed, h)] on the [len] bytes at [key], and
    [spooky_short_rehash(triple, seed, hash)]. *)
Variable spooky_short : list byte -> Z -> hash256.
Variable spooky_short_rehash : hash256 -> Z -> hash256.

(** [triple_to_equation]: the three vertices [e[0..2]]. *)
Definition triple_to_equation (triple : hash256) (seed : Z) (num_variables : Z)
  : option (Z * Z * Z) :=
  let hash := spooky_short_rehash triple seed in
  shift0 <- clzll (of_int num_variables) ;;
  let shift := to_int shift0 in
  let mask := sub64 (shl64 1 shift) 1 in
  let e0 := to_int (shr64 (mul64 (Z.land (word0 hash) mask) (of_int num_variables)) shift) in
  let e1 := to_int (shr64 (mul64 (Z.land (word1 hash) mask) (of_int num_variables)) shift) in
  let e2 := to_int (shr64 (mul64 (Z.land (word2 hash) mask) (of_int num_variables)) shift) in
  Some (e0, e1, e2).

(** [h[0] >> mph->chunk_shift] stored into [const int chunk]; a shift by the
    width of the type or more is undefined. *)
Definition chunk_of (m : mph) (h : hash256) : option Z :=
  if (0 <=? chunk_shift m) && (chunk_shift m <? 64)
  then Some (to_int (shr64 (word0 h) (chunk_shift m)))
  else None.

(** [get_byte_array(mph, key, len)]: [key] is the object the pointer refers
    to, of which [spooky_short] reads the first [len] bytes. *)
Definition get_byte_array (m : mph) (key : list byte) (len : Z) : option Z :=
  h <- (if (0 <=? len) && (len <=? Z.of_nat (length key))
        then Some (spooky_short (firstn (Z.to_nat len) key) (global_seed m))
        else None) ;;
  chunk <- chunk_of m h ;;
  edge_offset_seed <- idx (edge_offset_and_seed m) chunk ;;
  let chunk_offset := vertex_offset edge_offset_seed in
  chunk1 <- int_add chunk 1 ;;
  next <- idx (edge_offset_and_seed m) chunk1 ;;
  let num_variables := to_int (sub64 (vertex_offset next) chunk_offset) in
  if num_variables =? 0 then Some (-1)
  else
    e <- triple_to_equation h (Z.land edge_offset_seed (not64 OFFSET_MASK)) num_variables ;;
    let '(e0, e1, e2) := e in
    v0 <- get_2bit_value (array m) (add64 (of_int e0) chunk_offset) ;;
    v1 <- get_2bit_value (array m) (add64 (of_int e1) chunk_offset) ;;
    v2 <- get_2bit_value (array m) (add64 (of_int e2) chunk_offset) ;;
    ei <- sel3 e (Z.rem (v0 + v1 + v2) 3) ;;
    pairs <- count_nonzero_pairs chunk_offset (add64 chunk_offset (of_int ei)) (array m) ;;
    Some (to_int64 (add64 (Z.land edge_offset_seed OFFSET_MASK) pairs)).

(** [get_uint64_t(mph, key)]: [spooky_short(&key, 8, ...)] reads the eight
    bytes of the object [key]. *)
Definition get_uint64_t (m : mph) (key : Z) : option Z :=
  let h := spooky_short (le_split 8 key) (global_seed m) in
  chunk <- chunk_of m h ;;
  edge_offset_seed <- idx (edge_offset_and_seed m) chunk ;;
  let chunk_offset := vertex_offset edge_offset_seed in
  chunk1 <- int_add chunk 1 ;;
  next <- idx (edge_offset_and_seed m) chunk1 ;;
  let num_variables := to_int (sub64 (vertex_offset next) chunk_offset) in
  if num_variables =? 0 then Some (-1)
  else
    e <- triple_to_equation h (Z.land edge_offset_seed (not64 OFFSET_MASK)) num_variables ;;
    let '(e0, e1, e2) := e in
    v0 <- get_2bit_value (array m) (add64 (of_int e0) chunk_offset) ;;
    v1 <- get_2bit_value (array m) (add64 (of_int e1) chunk_offset) ;;
    v2 <- get_2bit_value (array m) (add64 (of_int e2) chunk_offset) ;;
    ei <- sel3 e (Z.rem (v0 + v1 + v2) 3) ;;
    pairs <- count_nonzero_pairs chunk_offset (add64 chunk_offset (of_int ei)) (array m) ;;
    Some (to_int64 (add64 (Z.land edge_offset_seed OFFSET_MASK) pairs)).

(** The statements after the call of [spooky_short], which the two entry
    points share word for word. *)
Definition lookup (m : mph) (h : hash256) : option Z :=
  chunk <- chunk_of m h ;;
  edge_offset_seed <- idx (edge_offset_and_seed m) chunk ;;
  let chunk_offset := vertex_offset edge_offset_seed in
  chunk1 <- int_add chunk 1 ;;
  next <- idx (edge_offset_and_seed m) chunk1 ;;
  let num_variables := to_int (sub64 (vertex_offset next) chunk_offset) in
  if num_variables =? 0 then Some (-1)
  else
    e <- triple_to_equation h (Z.land edge_offset_seed (not64 OFFSET_MASK)) num_variables ;;
    let '(e0, e1, e2) := e in
    v0 <- get_2bit_value (array m) (add64 (of_int e0) chunk_offset) ;;
    v1 <- get_2bit_value (array m) (add64 (of_int e1) chunk_offset) ;;
    v2 <- get_2bit_value (array m) (add64 (of_int e2) chunk_offset) ;;
    ei <- sel3 e (Z.rem (v0 + v1 + v2) 3) ;;
    pairs <- count_nonzero_pairs chunk_offset (add64 chunk_offset (of_int ei)) (array m) ;;
    Some (to_int64 (add64 (Z.land edge_offset_seed OFFSET_MASK) pairs)).

(** [evaluates m h result]: [result] is what one of the two entry points
    returns on a key that [spooky_short] hashes to [h]. *)
Inductive evaluates (m : mph) : hash256 -> option Z -> Prop :=
| evaluates_bytes (key : list byte) (len : Z) :
    0 <= len <= Z.of_nat (length key) ->
    evaluates m (spooky_short (firstn (Z.to_nat len) key) (global_seed m))
              (get_byte_array m key len)
| evaluates_uint64 (key : Z) :
    evaluates m (spooky_short (le_split 8 key) (global_seed m))
              (get_uint64_t m key).

(** *** The data model the construction works in *)

(** The hash of a key of the built set. *)
Definition key_hash (m : mph) (k : list byte) : hash256 :=
  spooky_short k (global_seed m).

(** The chunk of a key: [h[0] >> chunk_shift], as a 64-bit value. *)
Definition chunk_index (m : mph) (k : list byte) : Z :=
  Z.shiftr (word0 (key_hash m k)) (chunk_shift m).

(** Entry [c] of the chunk directory. *)
Definition entry (m : mph) (c : Z) : Z := nth (Z.to_nat c) (edge_offset_and_seed m) 0.

(** The first vertex of chunk [c], and the number of its vertices. *)
Definition chunk_first (m : mph) (c : Z) : Z := vertex_offset (entry m c).
Definition chunk_vertices (m : mph) (c : Z) : Z := chunk_first m (c + 1) - chunk_first m c.

(** The spec's [derive_triple]: each of the first three rehashed words is
    mapped into [[0, num_variables)] by [((word & mask) * num_variables) >> shift]
    with [shift = 64 - bit_length(num_variables)] and [mask = 2^shift - 1]. *)
Definition derive_triple (h : hash256) (local_seed num_variables : Z) : Z * Z * Z :=
  let hash := spooky_short_rehash h local_seed in
  let shift := 64 - bit_length num_variables in
  let mask := 2 ^ shift - 1 in
  (Z.shiftr (Z.land (word0 hash) mask * num_variables) shift,
   Z.shiftr (Z.land (word1 hash) mask * num_variables) shift,
   Z.shiftr (Z.land (word2 hash) mask * num_variables) shift).

(** The edge of a key: its three vertices inside its chunk. *)
Definition edge (m : mph) (k : list byte) : Z * Z * Z :=
  let c := chunk_index m k in
  derive_triple (key_hash m k) (Z.land (entry m c) (not64 OFFSET_MASK)) (chunk_vertices m c).

(** The vertex of its edge that the sum of the three labels modulo 3 names. *)
Definition chosen_vertex (m : mph) (k : list byte) : Z :=
  let c := chunk_index m k in
  let first := chunk_first m c in
  let '(e0, e1, e2) := edge m k in
  let s := (label_value (array m) (first + e0) + label_value (array m) (first + e1)
            + label_value (array m) (first + e2)) mod 3 in
  first + (if s =? 0 then e0 else if s =? 1 then e1 else e2).

(** The ordinal the construction gives a key: the keys of the chunks
    before its own, plus the rank of its vertex inside its chunk. *)
Definition ordinal (m : mph) (k : list byte) : Z :=
  let c := chunk_index m k in
  offset_field (entry m c)
  + nonzero_labels (chunk_first m c) (chosen_vertex m k)
                   (array m).

(** The keys of the set hashed into chunk [c], and into the chunks before it. *)
Definition keys_in_chunk (m : mph) (keys : list (list byte)) (c : Z) : list (list byte) :=
  filter (fun k => chunk_index m k =? c) keys.
Definition keys_before (m : mph) (keys : list (list byte)) (c : Z) : list (list byte) :=
  filter (fun k => chunk_index m k <? c) keys.

(** What the offline construction guarantees of the index it writes for the
    key set [keys], per chunk a key of the set hashes into. *)
Record chunk_invariants (m : mph) (keys : list (list byte)) (k : list byte) : Prop := {
  (* the directory has the entry of the chunk and the one after it *)
  directory_covers :
    0 <= chunk_index m k /\
    chunk_index m k + 2 <= Z.of_nat (length (edge_offset_and_seed m));
  (* the offset field is the number of keys of the chunks before *)
  offset_cumulative :
    offset_field (entry m (chunk_index m k))
    = Z.of_nat (length (keys_before m keys (chunk_index m k)));
  (* the label store covers the chunk's vertices *)
  labels_cover :
    chunk_first m (chunk_index m k + 1) <= 32 * Z.of_nat (length (array m));
  (* as many non-zero labels in the chunk's vertex range as keys in the chunk *)
  labels_count :
    nonzero_labels (chunk_first m (chunk_index m k))
                   (chunk_first m (chunk_index m k + 1)) (array m)
    = Z.of_nat (length (keys_in_chunk m keys (chunk_index m k)));
  (* the sum modulo 3 names a labelled vertex *)
  chosen_labelled : label_nonzero (array m) (chosen_vertex m k) = true
}.

(** The data-model invariants of an index built for the key set [keys]. *)
Record construction_invariants (m : mph) (keys : list (list byte)) : Prop := {
  keys_distinct : NoDup keys;
  key_count : size m = Z.of_nat (length keys);
  labels_u64 : words_u64 (array m);
  per_chunk : forall k, In k keys -> chunk_invariants m keys k;
  (* the sum modulo 3 names a different vertex for every key *)
  chosen_distinct :
    forall k k', In k keys -> In k' keys -> chosen_vertex m k = chosen_vertex m k' -> k = k'
}.

(** The magnitudes the C code can evaluate: a shift narrower than the
    64-bit word and, for every key, what the [int] variables hold: [chunk]
    and [chunk + 1] (a chunk index below [2^31 - 1]), [num_variables] (fewer
    than [2^31] vertices in the chunk), and [block] and [end_block] (the
    vertices of the chunk end at or below [2^36], so that the block index
    [v / 32] of each of them is below [2^31]). *)
Record int_magnitudes (m : mph) (keys : list (list byte)) : Prop := {
  shift_fits : 0 <= chunk_shift m < 64;
  chunk_fits : forall k, In k keys -> chunk_index m k < 2 ^ 31 - 1;
  vertices_fit : forall k, In k keys -> chunk_vertices m (chunk_index m k) < 2 ^ 31;
  blocks_fit : forall k, In k keys -> chunk_first m (chunk_index m k + 1) <= 2 ^ 36
}.

End Evaluate.

(** ** Loading *)

(** [n] words taken, eight bytes each and low byte first, from the bytes
    [bs] that a read stored into a zero-filled block: where the bytes run
    out, the block keeps its zeros. *)
Fixpoint words_of_bytes (n : nat) (bs : list byte) : list Z :=
  match n with
  | O => []
  | S k => le_combine (firstn 8 bs) :: words_of_bytes k (skipn 8 bs)
  end.

(** One call [read(h, buf, count)], [s] being the bytes the descriptor still
    has: the call transfers at most [count] bytes, at most the bytes that are
    left, and at most [granted], the number the system hands over in this
    call.  A call may be granted less than it asks for before the end of the
    stream (a pipe, a socket, a signal, the limit of a single transfer), and
    nothing at all on an error, where it returns [-1].  The result is the
    bytes transferred and the bytes left. *)
Definition read (granted count : Z) (s : list byte) : list byte * list byte :=
  let n := Z.to_nat (Z.min count granted) in
  (firstn n s, skipn n s).

(** [read(h, &obj, 8)] on an eight-byte object holding [old]: the bytes
    transferred overwrite the low end of the object; the return value of
    [read] is not looked at. *)
Definition read_obj (granted : Z) (old : Z) (s : list byte) : Z * list byte :=
  let '(got, s) := read granted 8 s in
  (le_combine (got ++ skipn (length got) (le_split 8 old)), s).

(** [read(h, block, count)] into the result of a [calloc]: the bytes
    transferred overwrite the start of the zero-filled block; nothing is
    transferred into a null block. *)
Definition read_array (granted : Z) (block : option (list Z)) (count : Z)
    (s : list byte) : list Z * list byte :=
  match block with
  | None => ([], s)
  | Some zeros =>
      let '(got, s) := read granted count s in
      (words_of_bytes (length zeros) got, s)
  end.

(** The byte stream of an index in the binary format [load_mph] reads:
    the fields in their fixed order, eight bytes each and low byte first, each
    array after its length. *)
Definition serialize (m : mph) : list byte :=
  le_split 8 (size m) ++ le_split 8 (chunk_shift m) ++ le_split 8 (global_seed m)
  ++ le_split 8 (edge_offset_and_seed_length m)
  ++ flat_map (le_split 8) (edge_offset_and_seed m)
  ++ le_split 8 (array_length m)
  ++ flat_map (le_split 8) (array m).

(** The indexes the format can hold: 64-bit fields and words, a 32-bit
    [chunk_shift], and the declared lengths those of the arrays. *)
Record serializable (m : mph) : Prop := {
  size_u64 : is_u64 (size m);
  chunk_shift_u32 : 0 <= chunk_shift m < 2 ^ 32;
  global_seed_u64 : is_u64 (global_seed m);
  directory_length : edge_offset_and_seed_length m = Z.of_nat (length (edge_offset_and_seed m));
  directory_u64 : words_u64 (edge_offset_and_seed m);
  directory_bytes : edge_offset_and_seed_length m * 8 < two64;
  labels_length : array_length m = Z.of_nat (length (array m));
  labels_words_u64 : words_u64 (array m);
  labels_bytes : array_length m * 8 < two64
}.

Section Load.

(** Whether the allocator can provide [nmemb] elements of [sz] bytes at the
    time of the call. *)
Variable heap_has : Z -> Z -> bool.
(** The content of the uninitialised local [uint64_t t]. *)
Variable t_uninit : Z.
(** The number of bytes the system hands over to the [k]-th [read] of the
    run, [k = 0 .. 6], when it asks for [count]. *)
Variable granted : nat -> Z -> Z.

(** [calloc(nmemb, sz)]: a zero-filled block, or null when the product
    overflows [size_t] or the heap cannot provide it. *)
Definition calloc (nmemb sz : Z) : option (list Z) :=
  if (nmemb * sz <? two64) && heap_has nmemb sz
  then Some (repeat 0 (Z.to_nat nmemb))
  else None.

(** [sizeof (mph)]: seven 8-byte slots. *)
Definition sizeof_mph : Z := 56.

(** [load_mph(h)], [s] being the bytes the descriptor [h] holds.  The only
    undefined run is the one in which the struct itself is null. *)
Definition load_mph (s : list byte) : option mph :=
  _ <- calloc 1 sizeof_mph ;;
  let '(size, s) := read_obj (granted 0 8) 0 s in
  let '(t, s) := read_obj (granted 1 8) t_uninit s in
  let chunk_shift := t mod 2 ^ 32 in
  let '(global_seed, s) := read_obj (granted 2 8) 0 s in
  let '(edge_offset_and_seed_length, s) := read_obj (granted 3 8) 0 s in
  let count := mul64 edge_offset_and_seed_length 8 in
  let '(edge_offset_and_seed, s) :=
    read_array (granted 4 count) (calloc edge_offset_and_seed_length 8) count s in
  let '(array_length, s) := read_obj (granted 5 8) 0 s in
  let count := mul64 array_length 8 in
  let '(array, s) := read_array (granted 6 count) (calloc array_length 8) count s in
  Some (Build_mph size chunk_shift global_seed edge_offset_and_seed_length
                  edge_offset_and_seed array_length array).

(** The runs in which every [read] is handed the bytes it asks for, the
    arrays being of [dlen] and [alen] words: a regular file read without
    error, each array below the limit of a single transfer. *)
Definition reads_in_full (dlen alen : Z) : Prop :=
  8 <= granted 0 8 /\ 8 <= granted 1 8 /\ 8 <= granted 2 8 /\ 8 <= granted 3 8 /\
  dlen * 8 <= granted 4 (dlen * 8) /\ 8 <= granted 5 8 /\
  alen * 8 <= granted 6 (alen * 8).

(** What the spec's loader reports; [load_mph] has no such results. *)
Inductive load_error : Type := TruncatedInputError | AllocationError.

(** The spec's loader, following its words: a stream that ends before a
    declared field or array is read is a [TruncatedInputError], a declared
    length that cannot be allocated an [AllocationError], and only a complete
    load, every field and array taken in full from the stream, returns an
    index. *)
Definition load_spec (s : list byte) : load_error + mph :=
  if Z.of_nat (length s) <? 32 then inl TruncatedInputError else
  let '(size, s) := read_obj 8 0 s in
  let '(t, s) := read_obj 8 0 s in
  let '(global_seed, s) := read_obj 8 0 s in
  let '(dlen, s) := read_obj 8 0 s in
  match calloc dlen 8 with
  | None => inl AllocationError
  | Some block =>
      if Z.of_nat (length s) <? dlen * 8 + 8 then inl TruncatedInputError else
      let '(dir, s) := read_array (dlen * 8) (Some block) (dlen * 8) s in
      let '(alen, s) := read_obj 8 0 s in
      match calloc alen 8 with
      | None => inl AllocationError
      | Some block' =>
          if Z.of_nat (length s) <? alen * 8 then inl TruncatedInputError else
          let '(arr, s) := read_array (alen * 8) (Some block') (alen * 8) s in
          inr (Build_mph size (t mod 2 ^ 32) global_seed dlen dir alen arr)
      end
  end.

End Load.

(** ** Sample data *)

(** A label store of [2^31 + 1] words (16 GiB): its first vertex is
    labelled, and block index [2^31] does not fit an [int]. *)
Definition giant_labels : list Z := 3 :: repeat 0 (Z.to_nat (2 ^ 31)).

(** Three label words: vertices [0, 5, 10, 15] of the first, all of the
    second and vertex [64] of the third are labelled. *)
Definition sample_labels : list Z := [0x00000000C0300C03; 0xFFFFFFFFFFFFFFFF; 0x1].

(** A stand-in for the rehash of [spooky.h]: it rotates the four words. *)
Definition toy_rehash (h : hash256) (seed : Z) : hash256 :=
  let '(a, b, c, d) := h in (b, c, d, a).

(** A stand-in for [spooky_short]: the first byte [v] of the key decides the
    chunk ([0] for [v < 3], [1] otherwise) and the three words from which
    [toy_rehash] and the multiply-shift derive the vertices [v], [v + 1] and
    [v + 2] modulo 3 of a chunk of three vertices. *)
Definition toy_word (j : Z) : Z :=
  if j mod 3 =? 0 then 0
  else if j mod 3 =? 1 then 1537228672809129302
  else 3074457345618258603.

Definition toy_hash (key : list byte) (seed : Z) : hash256 :=
  match key with
  | [] => (0, 0, 0, 0)
  | b :: _ =>
      let v := Z_of_byte b in
      ((if v <? 3 then 0 else 2 ^ 63), toy_word v, toy_word (v + 1), toy_word (v + 2))
  end.

(** Four keys, the encodings of the integers [0 .. 3], in two chunks: three
    keys on the vertices [0, 1, 2] of chunk [0], one key on vertex [3] of
    chunk [1]; the labels are [1, 2, 3, 1]. *)
Definition small_keys : list (list byte) := map (le_split 8) [0; 1; 2; 3].

Definition small_index : mph :=
  Build_mph 4 63 42 3
            [0 + 7 * 2 ^ 56; 3 + 9 * 2 ^ 56; 4]
            1 [121].

(** The directory [{offset: 0, seed: 5}, {offset: 0, seed: 9}]: chunk [0]
    has no vertex. *)
Definition empty_chunk_index : mph :=
  Build_mph 0 63 42 2 [0 + 5 * 2 ^ 56; 0 + 9 * 2 ^ 56] 0 [].

(** The small index with [chunk_shift = 32]. *)
Definition shift32_index : mph :=
  Build_mph 4 32 42 3 [0 + 7 * 2 ^ 56; 3 + 9 * 2 ^ 56; 4] 1 [121].


(** An index of a single chunk, [chunk_shift = 64]: three keys on three
    vertices labelled [1, 2, 3]; and a hash for it whose first word is not [0]. *)
Definition one_chunk_hash (key : list byte) (seed : Z) : hash256 :=
  match key with
  | [] => (1, 0, 0, 0)
  | b :: _ =>
      let v := Z_of_byte b in
      (1 + v, toy_word v, toy_word (v + 1), toy_word (v + 2))
  end.

Definition one_chunk_keys : list (list byte) := map (le_split 8) [0; 1; 2].

Definition one_chunk_index : mph :=
  Build_mph 3 64 42 2 [0 + 7 * 2 ^ 56; 3] 1 [57].

(** An index of [2^31 + 1] chunks, all empty but the last, which holds one
    key on one vertex: [chunk_shift = 32], and the directory is [t] followed
    by the two entries of the last chunk. *)
Definition far_chunk_index_on (t : list Z) : mph :=
  Build_mph 1 32 42 (2 ^ 31 + 2) (t ++ [0; 1]) 1 [3].

Definition far_chunk_index : mph := far_chunk_index_on (repeat 0 (Z.to_nat (2 ^ 31))).

Definition far_chunk_keys : list (list byte) := [le_split 8 3].

(** A directory whose vertex offsets decrease: [5], then [2]. *)
Definition decreasing_index : mph :=
  Build_mph 0 63 42 2 [5; 2] 1 [0x400].

(** An allocator that never fails, one that provides a mebibyte at most,
    and a content for the uninitialised [t]. *)
Definition heap_unbounded (nmemb sz : Z) : bool := true.
Definition heap_small (nmemb sz : Z) : bool := nmemb * sz <=? 2 ^ 20.
Definition t_garbage : Z := 0xDEADBEEF00000021.

(** A descriptor that hands over whatever is asked for, as a regular file
    does, and one whose fifth [read], the one of the directory, is handed 12
    bytes only. *)
Definition grant_all (k : nat) (count : Z) : Z := count.
Definition grant_short_directory (k : nat) (count : Z) : Z :=
  if Nat.eqb k 4 then 12 else count.

(** A stream that declares a directory of [2^61] entries after its three
    leading fields: [2^61 * 8] overflows [size_t]. *)
Definition overlong_stream : list byte :=
  le_split 8 1 ++ le_split 8 63 ++ le_split 8 42 ++ le_split 8 (2 ^ 61)
  ++ le_split 8 0.

(** The small index in the binary format. *)
Definition small_stream : list byte := serialize small_index.

(** Closed facts about the sample data, by evaluation. *)
Ltac closed_fact :=
  vm_compute; repeat split; first [reflexivity | discriminate | intro; discriminate].

(** * Properties *)

(** ** Counting over a range *)

Lemma count_from_ext (P Q : Z -> bool) (n : nat) (a : Z) :
  (forall i, a <= i < a + Z.of_nat n -> P i = Q i) ->
  count_from P a n = count_from Q a n.
Proof.
  revert a; induction n as [|n IH]; intros a H; cbn [count_from]; [reflexivity|].
  rewrite (H a) by lia. rewrite (IH (a + 1)); [reflexivity|].
  intros i Hi; apply H; lia.
Qed.

Lemma count_from_app (P : Z -> bool) (n k : nat) (a : Z) :
  count_from P a (n + k) = count_from P a n + count_from P (a + Z.of_nat n) k.
Proof.
  revert a; induction n as [|n IH]; intros a.
  - cbn [count_from Nat.add]. rewrite Z.add_0_r. reflexivity.
  - cbn [count_from Nat.add]. rewrite IH.
    replace (a + 1 + Z.of_nat n) with (a + Z.of_nat (S n)) by lia. lia.
Qed.

Lemma count_from_shift (P : Z -> bool) (d : Z) (n : nat) (a : Z) :
  count_from (fun i => P (i + d)) a n = count_from P (a + d) n.
Proof.
  revert a; induction n as [|n IH]; intros a; cbn [count_from]; [reflexivity|].
  rewrite IH. replace (a + 1 + d) with (a + d + 1) by lia. reflexivity.
Qed.

Lemma count_from_bounds (P : Z -> bool) (n : nat) (a : Z) :
  0 <= count_from P a n <= Z.of_nat n.
Proof.
  revert a; induction n as [|n IH]; intros a; cbn [count_from]; [lia|].
  specialize (IH (a + 1)). destruct (P a); cbn [Z.b2z]; lia.
Qed.

Lemma count_from_false (P : Z -> bool) (n : nat) (a : Z) :
  (forall i, a <= i < a + Z.of_nat n -> P i = false) ->
  count_from P a n = 0.
Proof.
  revert a; induction n as [|n IH]; intros a H; cbn [count_from]; [reflexivity|].
  rewrite (H a) by lia. rewrite IH; [reflexivity|]. intros i Hi; apply H; lia.
Qed.

Lemma range_count_empty (P : Z -> bool) (a : Z) : range_count P a a = 0.
Proof. unfold range_count. rewrite Z.sub_diag. reflexivity. Qed.

Lemma range_count_split (P : Z -> bool) (a b c : Z) :
  a <= b <= c -> range_count P a b + range_count P b c = range_count P a c.
Proof.
  intros H. unfold range_count.
  replace (Z.to_nat (c - a)) with (Z.to_nat (b - a) + Z.to_nat (c - b))%nat by lia.
  rewrite count_from_app. rewrite Z2Nat.id by lia.
  replace (a + (b - a)) with b by lia. reflexivity.
Qed.

Lemma range_count_bounds (P : Z -> bool) (a b : Z) :
  a <= b -> 0 <= range_count P a b <= b - a.
Proof.
  intros H. unfold range_count.
  pose proof (count_from_bounds P (Z.to_nat (b - a)) a). lia.
Qed.

Lemma range_count_ext (P Q : Z -> bool) (a b : Z) :
  (forall i, a <= i < b -> P i = Q i) -> range_count P a b = range_count Q a b.
Proof.
  intros H. unfold range_count. apply count_from_ext. intros i Hi. apply H. lia.
Qed.

Lemma range_count_shift (P : Z -> bool) (d a b : Z) :
  range_count (fun i => P (i + d)) a b = range_count P (a + d) (b + d).
Proof.
  unfold range_count. rewrite count_from_shift.
  replace (b + d - (a + d)) with (b - a) by lia. reflexivity.
Qed.

Lemma range_count_step (P : Z -> bool) (a b : Z) :
  a < b -> range_count P a b = Z.b2z (P a) + range_count P (a + 1) b.
Proof.
  intros H. unfold range_count.
  replace (Z.to_nat (b - a)) with (S (Z.to_nat (b - (a + 1)))) by lia.
  reflexivity.
Qed.

(** Beyond a prefix on which [Q] holds only below [hi], nothing is counted. *)
Lemma range_count_cut (P : Z -> bool) (a hi b : Z) :
  a <= hi <= b ->
  range_count (fun i => P i && (i <? hi)) a b = range_count P a hi.
Proof.
  intros H. rewrite <- (range_count_split _ a hi b) by lia.
  rewrite (range_count_ext _ P a hi).
  2:{ intros i Hi. destruct (Z.ltb_spec i hi); [apply andb_true_r | lia]. }
  unfold range_count at 2. rewrite count_from_false; [lia|].
  intros i Hi. destruct (Z.ltb_spec i hi); [lia | apply andb_false_r].
Qed.

(** ** Machine integers *)

Lemma to_int_id (x : Z) : is_int x -> to_int x = x.
Proof.
  unfold is_int, to_int. intros H.
  rewrite Z.mod_small by lia. lia.
Qed.

Lemma to_int_range (x : Z) : is_int (to_int x).
Proof.
  unfold is_int, to_int.
  pose proof (Z.mod_pos_bound (x + 2 ^ 31) (2 ^ 32) ltac:(lia)). lia.
Qed.

Lemma u64_id (x : Z) : is_u64 x -> u64 x = x.
Proof. unfold is_u64, u64. intros H. apply Z.mod_small. exact H. Qed.

Lemma u64_range (x : Z) : is_u64 (u64 x).
Proof. unfold is_u64, u64, two64. apply Z.mod_pos_bound. lia. Qed.

Lemma to_int64_id (x : Z) : - 2 ^ 63 <= x < 2 ^ 63 -> to_int64 x = x.
Proof.
  unfold to_int64, two64. intros H.
  rewrite Z.mod_small by lia. lia.
Qed.

Lemma int_add_fits (a b : Z) :
  - 2 ^ 31 <= a + b < 2 ^ 31 -> int_add a b = Some (a + b).
Proof.
  intros H. unfold int_add.
  destruct (Z.leb_spec (- 2 ^ 31) (a + b)); [|lia].
  destruct (Z.ltb_spec (a + b) (2 ^ 31)); [|lia].
  reflexivity.
Qed.


Lemma mask_ones (k : Z) :
  0 <= k <= 63 -> sub64 (shl64 1 k) 1 = Z.ones k.
Proof.
  intros H. unfold sub64, shl64, u64, two64.
  rewrite Z.shiftl_1_l.
  assert (0 < 2 ^ k <= 2 ^ 63) by (split; [lia | apply Z.pow_le_mono_r; lia]).
  rewrite (Z.mod_small (2 ^ k)) by lia.
  rewrite Z.mod_small by lia.
  rewrite Z.ones_equiv. lia.
Qed.

Lemma idx_in (a : list Z) (i : Z) :
  0 <= i < Z.of_nat (length a) -> idx a i = Some (nth (Z.to_nat i) a 0).
Proof.
  intros H. unfold idx.
  destruct (Z.ltb_spec i 0); [lia|].
  apply nth_error_nth'. lia.
Qed.

Lemma idx_neg (a : list Z) (i : Z) : i < 0 -> idx a i = None.
Proof. intros H. unfold idx. destruct (Z.ltb_spec i 0); [reflexivity | lia]. Qed.



Lemma words_u64_nth (a : list Z) (n : nat) : words_u64 a -> is_u64 (nth n a 0).
Proof.
  intros H. destruct (Nat.lt_ge_cases n (length a)) as [Hl|Hl].
  - unfold words_u64 in H. rewrite Forall_forall in H. apply H. apply nth_In. exact Hl.
  - rewrite nth_overflow by exact Hl. unfold is_u64, two64. lia.
Qed.

(** ** Pairs of bits in one word *)

Lemma count_from_even (P : Z -> bool) (n : nat) (a : Z) :
  (forall j, a <= j < a + Z.of_nat n -> P (2 * j + 1) = false) ->
  count_from P (2 * a) (2 * n) = count_from (fun j => P (2 * j)) a n.
Proof.
  revert a; induction n as [|n IH]; intros a H; [reflexivity|].
  replace (2 * S n)%nat with (S (S (2 * n))) by lia.
  cbn [count_from].
  replace (2 * a + 1 + 1) with (2 * (a + 1)) by lia.
  rewrite IH by (intros j Hj; apply H; lia).
  rewrite (H a) by lia. cbn [Z.b2z]. lia.
Qed.

Lemma mask55_bits (j : Z) :
  0 <= j < 32 ->
  Z.testbit 0x5555555555555555 (2 * j) = true /\
  Z.testbit 0x5555555555555555 (2 * j + 1) = false.
Proof.
  intros H.
  assert (E : forallb (fun n => Z.testbit 0x5555555555555555 (2 * Z.of_nat n)
                                && negb (Z.testbit 0x5555555555555555 (2 * Z.of_nat n + 1)))
                      (seq 0 32) = true) by (vm_compute; reflexivity).
  rewrite forallb_forall in E.
  specialize (E (Z.to_nat j)). rewrite Z2Nat.id in E by lia.
  assert (I : In (Z.to_nat j) (seq 0 32)) by (apply in_seq; lia).
  apply E in I. apply andb_true_iff in I. destruct I as [I1 I2].
  apply negb_true_iff in I2. split; assumption.
Qed.

(** [_count_nonzero_pairs] counts the 2-bit groups of its argument that are
    not [0b00]. *)
Lemma count_nonzero_pairs_word (x : Z) :
  _count_nonzero_pairs x = range_count (pair_nonzero x) 0 32.
Proof.
  unfold _count_nonzero_pairs, popcountll, range_count, shr64.
  change 64%nat with (2 * 32)%nat. change 0 with (2 * 0) at 1.
  rewrite count_from_even.
  - change (Z.to_nat (32 - 0)) with 32%nat.
    apply count_from_ext. intros j Hj.
    rewrite Z.land_spec, Z.lor_spec, Z.shiftr_spec by lia.
    destruct (mask55_bits j ltac:(lia)) as [-> _].
    rewrite andb_true_r. unfold pair_nonzero. reflexivity.
  - intros j Hj. rewrite Z.land_spec.
    destruct (mask55_bits j ltac:(lia)) as [_ ->]. apply andb_false_r.
Qed.

Lemma count_nonzero_pairs_word_bounds (x : Z) : 0 <= _count_nonzero_pairs x <= 32.
Proof.
  rewrite count_nonzero_pairs_word.
  pose proof (range_count_bounds (pair_nonzero x) 0 32 ltac:(lia)). lia.
Qed.

Lemma testbit_u64_high (w k : Z) : is_u64 w -> 64 <= k -> Z.testbit w k = false.
Proof.
  intros [H0 H1] Hk. destruct (Z.eq_dec w 0) as [->|Hne]; [apply Z.testbit_0_l|].
  apply Z.bits_above_log2; [lia|].
  assert (Z.log2 w < 64); [|lia].
  apply Z.log2_lt_pow2; [lia | exact H1].
Qed.

(** The groups [lo .. hi-1] of [w], moved down to position [0] by the mask
    and shift of the rank operator. *)
Lemma count_nonzero_pairs_slice (w lo hi : Z) :
  is_u64 w -> 0 <= lo <= hi -> hi <= 32 ->
  _count_nonzero_pairs (shr64 (Z.land w (Z.ones (2 * hi))) (2 * lo))
  = range_count (pair_nonzero w) lo hi.
Proof.
  intros Hw Hlo Hhi. rewrite count_nonzero_pairs_word.
  rewrite (range_count_ext _ (fun j => (fun i => pair_nonzero w i && (i <? hi)) (j + lo)) 0 32).
  - rewrite (range_count_shift (fun i => pair_nonzero w i && (i <? hi)) lo 0 32).
    rewrite Z.add_0_l. apply range_count_cut. lia.
  - intros j Hj. unfold pair_nonzero, shr64.
    rewrite !Z.shiftr_spec, !Z.land_spec by lia.
    replace (2 * j + 2 * lo) with (2 * (j + lo)) by lia.
    replace (2 * j + 1 + 2 * lo) with (2 * (j + lo) + 1) by lia.
    destruct (Z.ltb_spec (j + lo) hi) as [Hlt|Hge].
    + rewrite !Z.ones_spec_low by lia. rewrite !andb_true_r. reflexivity.
    + rewrite !Z.ones_spec_high by lia. rewrite !andb_false_r. reflexivity.
Qed.

Lemma land_ones_64 (w : Z) : is_u64 w -> Z.land w (Z.ones 64) = w.
Proof.
  intros Hw. rewrite Z.land_ones by lia. apply Z.mod_small. exact Hw.
Qed.

(** ** The rank operator counts non-zero labels *)

Lemma label_nonzero_block (labels : list Z) (b lo hi : Z) :
  0 <= b -> 0 <= lo -> hi <= 32 ->
  range_count (label_nonzero labels) (32 * b + lo) (32 * b + hi)
  = range_count (pair_nonzero (nth (Z.to_nat b) labels 0)) lo hi.
Proof.
  intros Hb Hlo Hhi.
  replace (32 * b + lo) with (lo + 32 * b) by lia.
  replace (32 * b + hi) with (hi + 32 * b) by lia.
  rewrite <- range_count_shift. apply range_count_ext.
  intros j Hj. unfold label_nonzero, pair_nonzero.
  replace ((j + 32 * b) / 32) with b by (apply Z.div_unique with (r := j); lia).
  replace ((j + 32 * b) mod 32) with j by (apply Z.mod_unique with (q := b); lia).
  reflexivity.
Qed.

Lemma add64_small (a b : Z) : 0 <= a -> 0 <= b -> a + b < two64 -> add64 a (of_int b) = a + b.
Proof.
  intros Ha Hb H. unfold add64, of_int, u64.
  rewrite (Z.mod_small b) by lia. apply Z.mod_small. lia.
Qed.

Lemma count_blocks_sum (labels : list Z) (s : Z) (n : nat) (block pairs : Z) :
  0 <= block -> block + Z.of_nat n <= Z.of_nat (length labels) ->
  0 <= s <= 32 * block -> 32 * (block + Z.of_nat n) < two64 ->
  pairs = nonzero_labels s (32 * block) labels ->
  count_blocks n labels block pairs
  = Some (nonzero_labels s (32 * (block + Z.of_nat n)) labels, block + Z.of_nat n).
Proof.
  unfold nonzero_labels.
  revert block pairs; induction n as [|n IH]; intros block pairs Hb Hlen Hs Hlt ->.
  - cbn [count_blocks]. rewrite Nat2Z.inj_0, Z.add_0_r. reflexivity.
  - cbn [count_blocks]. rewrite idx_in by lia. cbn [bind].
    rewrite (IH (block + 1)); try lia.
    + replace (block + 1 + Z.of_nat n) with (block + Z.of_nat (S n)) by lia. reflexivity.
    + pose proof (count_nonzero_pairs_word_bounds (nth (Z.to_nat block) labels 0)) as Hw.
      pose proof (range_count_bounds (label_nonzero labels) s (32 * block) ltac:(lia)) as Hr.
      rewrite add64_small by lia.
      rewrite count_nonzero_pairs_word.
      rewrite <- (label_nonzero_block labels block 0 32) by lia.
      rewrite Z.add_0_r.
      replace (32 * block + 32) with (32 * (block + 1)) by lia.
      apply range_count_split. lia.
Qed.

(** The rank operator on every range whose words lie in the array and whose
    block indices fit the [int] they are stored in. *)
Lemma count_nonzero_pairs_correct (labels : list Z) (start end_ : Z) :
  words_u64 labels ->
  0 <= start <= end_ ->
  end_ <= 32 * Z.of_nat (length labels) ->
  start < 32 * Z.of_nat (length labels) ->
  end_ < 2 ^ 36 ->
  count_nonzero_pairs start end_ labels = Some (nonzero_labels start end_ labels).
Proof.
  intros Hw Hse Hend Hstart Hint.
  set (len := Z.of_nat (length labels)) in *.
  pose proof (Z.div_mod start 32 ltac:(lia)) as Ds.
  pose proof (Z.div_mod end_ 32 ltac:(lia)) as De.
  pose proof (Z.mod_pos_bound start 32 ltac:(lia)) as Ms.
  pose proof (Z.mod_pos_bound end_ 32 ltac:(lia)) as Me.
  assert (Hdiv : start / 32 <= end_ / 32) by (apply Z.div_le_mono; lia).
  assert (HB0 : 0 <= start / 32) by (apply Z.div_pos; lia).
  assert (HE : end_ / 32 < 2 ^ 31) by (apply Z.div_lt_upper_bound; lia).
  assert (HBl : start / 32 < len) by (apply Z.div_lt_upper_bound; lia).
  assert (HEl : end_ / 32 <= len) by (apply Z.div_le_upper_bound; lia).
  unfold count_nonzero_pairs.
  rewrite !to_int_id by (unfold is_int; lia).
  rewrite !mask_ones by lia.
  set (B := start / 32) in *. set (E := end_ / 32) in *.
  set (so := start mod 32) in *. set (eo := end_ mod 32) in *.
  assert (Hstart32 : start = 32 * B + so) by lia.
  assert (Hend32 : end_ = 32 * E + eo) by lia.
  rewrite ?(Z.mul_comm so 2), ?(Z.mul_comm eo 2).
  unfold nonzero_labels.
  destruct (Z.eqb_spec B E) as [HBE|HBE].
  - (* one word *)
    rewrite idx_in by (fold len; lia). cbn [bind]. f_equal.
    assert (so <= eo) by lia.
    rewrite count_nonzero_pairs_slice by (try apply words_u64_nth; try lia; assumption).
    pose proof (range_count_bounds (pair_nonzero (nth (Z.to_nat B) labels 0)) so eo ltac:(lia)).
    unfold of_int. rewrite u64_id by (unfold is_u64, two64; lia).
    rewrite Hstart32, Hend32, <- HBE.
    symmetry. apply label_nonzero_block; lia.
  - (* several words *)
    assert (HBlt : B < E) by lia.
    assert (Hfirst :
      (if negb (so =? 0)
       then w <- idx labels B ;;
            block' <- int_add B 1 ;;
            Some (add64 0 (of_int (_count_nonzero_pairs (shr64 w (2 * so)))), block')
       else Some (0, B))
      = Some (range_count (label_nonzero labels) start (32 * (B + (if so =? 0 then 0 else 1))),
              B + (if so =? 0 then 0 else 1))).
    { destruct (Z.eqb_spec so 0) as [Hso|Hso]; cbn [negb].
      - rewrite Z.add_0_r. replace start with (32 * B) by lia.
        rewrite range_count_empty. reflexivity.
      - rewrite idx_in by (fold len; lia). cbn [bind].
        rewrite int_add_fits by lia. cbn [bind]. f_equal. f_equal.
        pose proof (words_u64_nth labels (Z.to_nat B) Hw) as HwB.
        rewrite <- (land_ones_64 (nth (Z.to_nat B) labels 0)) at 1 by exact HwB.
        change 64 with (2 * 32).
        rewrite count_nonzero_pairs_slice by (try lia; assumption).
        pose proof (range_count_bounds (pair_nonzero (nth (Z.to_nat B) labels 0)) so 32
                      ltac:(lia)).
        rewrite add64_small by (unfold two64; lia). rewrite Z.add_0_l.
        rewrite Hstart32 at 1.
        replace (32 * (B + 1)) with (32 * B + 32) by lia.
        symmetry. apply label_nonzero_block; lia. }
    rewrite Hfirst. cbn [bind].
    set (B' := B + (if so =? 0 then 0 else 1)).
    assert (HB' : B <= B' <= E /\ start <= 32 * B').
    { unfold B'. destruct (Z.eqb_spec so 0); lia. }
    rewrite (count_blocks_sum labels start) with (block := B');
      try (unfold two64; fold len; lia); [|reflexivity].
    rewrite Z2Nat.id by lia. replace (B' + (E - B')) with E by lia.
    cbn [bind].
    destruct (Z.eqb_spec eo 0) as [Heo|Heo]; cbn [negb].
    + f_equal. unfold nonzero_labels. f_equal. lia.
    + rewrite idx_in by (fold len; lia). cbn [bind]. f_equal.
      pose proof (words_u64_nth labels (Z.to_nat E) Hw) as HwE.
      replace (Z.land (nth (Z.to_nat E) labels 0) (Z.ones (2 * eo)))
        with (shr64 (Z.land (nth (Z.to_nat E) labels 0) (Z.ones (2 * eo))) (2 * 0))
        by (unfold shr64; rewrite Z.shiftr_0_r; reflexivity).
      rewrite count_nonzero_pairs_slice by (try lia; assumption).
      pose proof (range_count_bounds (pair_nonzero (nth (Z.to_nat E) labels 0)) 0 eo
                    ltac:(lia)).
      unfold nonzero_labels.
      pose proof (range_count_bounds (label_nonzero labels) start (32 * E) ltac:(lia)).
      rewrite add64_small by (unfold two64; lia).
      rewrite <- (label_nonzero_block labels E 0 eo) by lia.
      rewrite Z.add_0_r. rewrite Hend32.
      apply range_count_split. lia.
Qed.

(** ** Leading zeros and the multiply-shift range reduction *)

Lemma clz_from_log2 (n : nat) (x : Z) :
  0 < x < 2 ^ Z.of_nat n -> clz_from n x = Z.of_nat n - 1 - Z.log2 x.
Proof.
  revert x; induction n as [|n IH]; intros x Hx.
  - change (2 ^ Z.of_nat 0) with 1 in Hx. lia.
  - cbn [clz_from].
    rewrite Nat2Z.inj_succ, Z.pow_succ_r in Hx by lia.
    assert (Hp : 0 < 2 ^ Z.of_nat n) by (apply Z.pow_pos_nonneg; lia).
    destruct (Z.testbit x (Z.of_nat n)) eqn:Hb.
    + apply Z.testbit_true in Hb; [|lia].
      assert (Hq : 0 <= x / 2 ^ Z.of_nat n < 2).
      { split; [apply Z.div_pos; lia | apply Z.div_lt_upper_bound; lia]. }
      assert (Hq1 : x / 2 ^ Z.of_nat n = 1).
      { rewrite Z.mod_small in Hb by lia. exact Hb. }
      assert (Hge : 2 ^ Z.of_nat n <= x).
      { pose proof (Z.mul_div_le x (2 ^ Z.of_nat n) Hp). lia. }
      rewrite (Z.log2_unique x (Z.of_nat n)); [lia | lia |].
      rewrite Z.pow_succ_r by lia. lia.
    + apply Z.testbit_false in Hb; [|lia].
      assert (Hq : 0 <= x / 2 ^ Z.of_nat n < 2).
      { split; [apply Z.div_pos; lia | apply Z.div_lt_upper_bound; lia]. }
      assert (Hq0 : x / 2 ^ Z.of_nat n = 0).
      { rewrite Z.mod_small in Hb by lia. exact Hb. }
      assert (Hlt : x < 2 ^ Z.of_nat n).
      { apply Z.div_small_iff in Hq0; lia. }
      rewrite IH by lia. lia.
Qed.

Lemma clzll_bit_length (x : Z) :
  0 < x < two64 -> clzll x = Some (64 - bit_length x).
Proof.
  intros Hx. unfold clzll, bit_length.
  destruct (Z.eqb_spec x 0); [lia|].
  rewrite (clz_from_log2 64 x) by exact Hx.
  f_equal. lia.
Qed.

Lemma bit_length_int (nv : Z) : 1 <= nv < 2 ^ 31 -> 1 <= bit_length nv <= 31.
Proof.
  intros H. unfold bit_length. destruct (Z.eqb_spec nv 0); [lia|].
  pose proof (Z.log2_nonneg nv).
  assert (Z.log2 nv < 31) by (apply Z.log2_lt_pow2; lia). lia.
Qed.

Lemma bit_length_bound (nv : Z) : 1 <= nv -> nv < 2 ^ bit_length nv.
Proof.
  intros H. unfold bit_length. destruct (Z.eqb_spec nv 0); [lia|].
  pose proof (Z.log2_spec nv ltac:(lia)) as L.
  replace (Z.log2 nv + 1) with (Z.succ (Z.log2 nv)) by lia. lia.
Qed.

(** One component of the triple: [((x & mask) * nv) >> shift] needs no
    reduction modulo [2^64], fits an [int], and lies in [[0, nv)]. *)
Lemma multiply_shift_range (x nv : Z) :
  1 <= nv < 2 ^ 31 ->
  let shift := 64 - bit_length nv in
  let mask := 2 ^ shift - 1 in
  to_int (shr64 (mul64 (Z.land x mask) (of_int nv)) shift)
    = Z.shiftr (Z.land x mask * nv) shift
  /\ 0 <= Z.shiftr (Z.land x mask * nv) shift < nv.
Proof.
  intros Hnv shift mask.
  pose proof (bit_length_int nv Hnv) as Hbl.
  pose proof (bit_length_bound nv ltac:(lia)) as Hb.
  assert (Hs : 33 <= shift <= 63) by (unfold shift; lia).
  assert (Hp : 0 < 2 ^ shift) by (apply Z.pow_pos_nonneg; lia).
  assert (Hm : 0 <= Z.land x mask < 2 ^ shift).
  { unfold mask.
    replace (2 ^ shift - 1) with (Z.ones shift) by (rewrite Z.ones_equiv; lia).
    rewrite Z.land_ones by lia. apply Z.mod_pos_bound. lia. }
  assert (H64 : 2 ^ shift * 2 ^ bit_length nv = two64).
  { rewrite <- Z.pow_add_r by lia. unfold shift, two64. f_equal. lia. }
  assert (Hprod : 0 <= Z.land x mask * nv < two64) by nia.
  assert (Hres : 0 <= Z.shiftr (Z.land x mask * nv) shift < nv).
  { rewrite Z.shiftr_div_pow2 by lia. split.
    - apply Z.div_pos; lia.
    - apply Z.div_lt_upper_bound; nia. }
  split; [|exact Hres].
  unfold shr64, mul64, of_int.
  rewrite (u64_id nv) by (unfold is_u64, two64; lia).
  rewrite u64_id by exact Hprod.
  apply to_int_id. unfold is_int. lia.
Qed.

(** ** Evaluation, step by step *)

Lemma OFFSET_MASK_ones : OFFSET_MASK = Z.ones 56.
Proof. vm_compute. reflexivity. Qed.

Lemma C_TIMES_256_value : C_TIMES_256 = 281.
Proof. vm_compute. reflexivity. Qed.

Lemma R_spec_value : R_spec = 281.
Proof. vm_compute. reflexivity. Qed.

Lemma land_OFFSET_MASK (entry : Z) : Z.land entry OFFSET_MASK = offset_field entry.
Proof. rewrite OFFSET_MASK_ones. unfold offset_field. apply Z.land_ones. lia. Qed.

Lemma offset_field_range (entry : Z) : 0 <= offset_field entry < 2 ^ 56.
Proof. unfold offset_field. apply Z.mod_pos_bound. lia. Qed.

(** [vertex_offset] in arithmetic: the product is reduced modulo [2^64]
    before the division by [256]. *)
Lemma vertex_offset_arith (entry : Z) :
  vertex_offset entry = ((offset_field entry * 281) mod 2 ^ 64) / 256.
Proof.
  unfold vertex_offset, shr64, mul64, of_int, u64, two64.
  rewrite land_OFFSET_MASK, C_TIMES_256_value.
  rewrite (Z.mod_small 281) by lia.
  rewrite Z.shiftr_div_pow2 by lia. reflexivity.
Qed.

Lemma vertex_offset_range (entry : Z) : 0 <= vertex_offset entry < 2 ^ 56.
Proof.
  rewrite vertex_offset_arith.
  pose proof (Z.mod_pos_bound (offset_field entry * 281) (2 ^ 64) ltac:(lia)).
  split; [apply Z.div_pos; lia | apply Z.div_lt_upper_bound; lia].
Qed.

Lemma vertex_offset_small (entry : Z) :
  offset_field entry * 281 < 2 ^ 64 ->
  vertex_offset entry = offset_field entry * 281 / 256.
Proof.
  intros H. rewrite vertex_offset_arith.
  pose proof (offset_field_range entry).
  rewrite Z.mod_small by lia. reflexivity.
Qed.

Section EvaluateFacts.

Variable spooky_short : list byte -> Z -> hash256.
Variable spooky_short_rehash : hash256 -> Z -> hash256.

(** The three vertices in arithmetic, for the values an [int] parameter
    [num_variables >= 1] can take. *)
Lemma triple_to_equation_value (triple : hash256) (seed nv : Z) :
  1 <= nv < 2 ^ 31 ->
  let hash := spooky_short_rehash triple seed in
  let shift := 64 - bit_length nv in
  let mask := 2 ^ shift - 1 in
  triple_to_equation spooky_short_rehash triple seed nv
  = Some (Z.shiftr (Z.land (word0 hash) mask * nv) shift,
          Z.shiftr (Z.land (word1 hash) mask * nv) shift,
          Z.shiftr (Z.land (word2 hash) mask * nv) shift).
Proof.
  intros Hnv. cbv zeta.
  pose proof (bit_length_int nv Hnv) as Hbl.
  unfold triple_to_equation.
  assert (Hc : clzll (of_int nv) = Some (64 - bit_length nv)).
  { unfold of_int. rewrite (u64_id nv) by (unfold is_u64, two64; lia).
    apply clzll_bit_length. unfold two64. lia. }
  rewrite Hc. cbn [bind].
  rewrite (to_int_id (64 - bit_length nv)) by (unfold is_int; lia).
  rewrite mask_ones by lia.
  replace (Z.ones (64 - bit_length nv)) with (2 ^ (64 - bit_length nv) - 1)
    by (rewrite Z.ones_equiv; lia).
  pose proof (multiply_shift_range (word0 (spooky_short_rehash triple seed)) nv Hnv) as H0.
  pose proof (multiply_shift_range (word1 (spooky_short_rehash triple seed)) nv Hnv) as H1.
  pose proof (multiply_shift_range (word2 (spooky_short_rehash triple seed)) nv Hnv) as H2.
  cbv zeta in H0, H1, H2.
  destruct H0 as [-> _], H1 as [-> _], H2 as [-> _].
  reflexivity.
Qed.

Lemma get_byte_array_lookup (m : mph) (key : list byte) (len : Z) :
  0 <= len <= Z.of_nat (length key) ->
  get_byte_array spooky_short spooky_short_rehash m key len
  = lookup spooky_short_rehash m (spooky_short (firstn (Z.to_nat len) key) (global_seed m)).
Proof.
  intros H. unfold get_byte_array, lookup.
  destruct (Z.leb_spec 0 len); [|lia].
  destruct (Z.leb_spec len (Z.of_nat (length key))); [|lia].
  reflexivity.
Qed.

Lemma get_uint64_t_lookup (m : mph) (key : Z) :
  get_uint64_t spooky_short spooky_short_rehash m key
  = lookup spooky_short_rehash m (spooky_short (le_split 8 key) (global_seed m)).
Proof. reflexivity. Qed.

End EvaluateFacts.

(** ** A bound on every rank the code can compute *)




(** ** Labels *)

Lemma label_value_range (labels : list Z) (i : Z) : 0 <= label_value labels i <= 3.
Proof.
  unfold label_value.
  set (x := Z.shiftr (nth (Z.to_nat (i / 32)) labels 0) (2 * (i mod 32))).
  replace (Z.land x 3) with (x mod 2 ^ 2)
    by (rewrite <- Z.land_ones by lia; reflexivity).
  change (2 ^ 2) with 4.
  pose proof (Z.mod_pos_bound x 4 ltac:(lia)). lia.
Qed.

Lemma get_2bit_value_label (labels : list Z) (pos : Z) :
  0 <= pos < 32 * Z.of_nat (length labels) -> pos < 2 ^ 63 ->
  get_2bit_value labels pos = Some (label_value labels pos).
Proof.
  intros Hpos Hlt. unfold get_2bit_value, mul64.
  rewrite u64_id by (unfold is_u64, two64; lia).
  replace (pos * 2 / 64) with (pos / 32)
    by (rewrite (Z.mul_comm pos 2); change 64 with (2 * 32);
        rewrite Z.div_mul_cancel_l by lia; reflexivity).
  replace (pos * 2 mod 64) with (2 * (pos mod 32))
    by (rewrite (Z.mul_comm pos 2); change 64 with (2 * 32);
        rewrite Z.mul_mod_distr_l by lia; reflexivity).
  assert (0 <= pos / 32 < Z.of_nat (length labels)).
  { split; [apply Z.div_pos; lia | apply Z.div_lt_upper_bound; lia]. }
  rewrite idx_in by lia. cbn [bind]. f_equal.
  apply to_int_id. pose proof (label_value_range labels pos) as H'.
  unfold label_value, shr64, is_int in *. lia.
Qed.

Section LookupFacts.

Variable spooky_short_rehash : hash256 -> Z -> hash256.

Lemma derive_triple_range (h : hash256) (seed nv : Z) :
  1 <= nv < 2 ^ 31 ->
  let '(e0, e1, e2) := derive_triple spooky_short_rehash h seed nv in
  (0 <= e0 < nv) /\ (0 <= e1 < nv) /\ (0 <= e2 < nv).
Proof.
  intros Hnv. unfold derive_triple.
  pose proof (multiply_shift_range (word0 (spooky_short_rehash h seed)) nv Hnv) as H0.
  pose proof (multiply_shift_range (word1 (spooky_short_rehash h seed)) nv Hnv) as H1.
  pose proof (multiply_shift_range (word2 (spooky_short_rehash h seed)) nv Hnv) as H2.
  cbv zeta in H0, H1, H2. tauto.
Qed.

Lemma triple_to_equation_derive (h : hash256) (seed nv : Z) :
  1 <= nv < 2 ^ 31 ->
  triple_to_equation spooky_short_rehash h seed nv
  = Some (derive_triple spooky_short_rehash h seed nv).
Proof.
  intros Hnv. rewrite triple_to_equation_value by exact Hnv. reflexivity.
Qed.

(** The value of a defined lookup in a chunk that has vertices. *)
Lemma lookup_value (m : mph) (h : hash256) (c : Z) :
  chunk_of m h = Some c ->
  0 <= c < 2 ^ 31 - 1 ->
  c + 2 <= Z.of_nat (length (edge_offset_and_seed m)) ->
  let eos := nth (Z.to_nat c) (edge_offset_and_seed m) 0 in
  let next := nth (Z.to_nat (c + 1)) (edge_offset_and_seed m) 0 in
  let first := vertex_offset eos in
  let nv := vertex_offset next - first in
  1 <= nv < 2 ^ 31 ->
  words_u64 (array m) ->
  vertex_offset next <= 32 * Z.of_nat (length (array m)) ->
  vertex_offset next <= 2 ^ 36 ->
  let '(e0, e1, e2) :=
    derive_triple spooky_short_rehash h (Z.land eos (not64 OFFSET_MASK)) nv in
  let s := (label_value (array m) (first + e0) + label_value (array m) (first + e1)
            + label_value (array m) (first + e2)) mod 3 in
  let ei := if s =? 0 then e0 else if s =? 1 then e1 else e2 in
  lookup spooky_short_rehash m h
  = Some (offset_field eos + nonzero_labels first (first + ei) (array m)).
Proof.
  intros Hc Hcr Hdir eos next first nv Hnv Hw Hcover Hfit.
  pose proof (derive_triple_range h (Z.land eos (not64 OFFSET_MASK)) nv Hnv) as Hr.
  pose proof (triple_to_equation_derive h (Z.land eos (not64 OFFSET_MASK)) nv Hnv) as Ht.
  destruct (derive_triple spooky_short_rehash h (Z.land eos (not64 OFFSET_MASK)) nv)
    as [[e0 e1] e2].
  destruct Hr as (R0 & R1 & R2).
  intros s ei.
  pose proof (vertex_offset_range eos) as Vf. fold first in Vf.
  pose proof (vertex_offset_range next) as Vn.
  unfold lookup. rewrite Hc. cbn [bind].
  rewrite idx_in by lia. cbn [bind]. fold eos. fold first.
  unfold int_add.
  destruct (Z.leb_spec (- 2 ^ 31) (c + 1)); [|lia].
  destruct (Z.ltb_spec (c + 1) (2 ^ 31)); [|lia].
  cbn [andb bind].
  rewrite idx_in by lia. cbn [bind]. fold next.
  assert (Hsub : to_int (sub64 (vertex_offset next) first) = nv).
  { unfold sub64. rewrite u64_id by (unfold is_u64, two64; fold nv; lia).
    apply to_int_id. unfold is_int. fold nv. lia. }
  rewrite Hsub.
  destruct (Z.eqb_spec nv 0); [lia|].
  rewrite Ht. cbn [bind].
  assert (Hof : forall e, 0 <= e < nv -> of_int e = e).
  { intros e He. unfold of_int. apply u64_id. unfold is_u64, two64. lia. }
  assert (Hadd : forall e, 0 <= e < nv -> add64 (of_int e) first = first + e).
  { intros e He. rewrite (Hof e He). unfold add64. rewrite u64_id; [lia|].
    unfold is_u64, two64. lia. }
  assert (Hadd' : forall e, 0 <= e < nv -> add64 first (of_int e) = first + e).
  { intros e He. rewrite (Hof e He). unfold add64. apply u64_id.
    unfold is_u64, two64. lia. }
  rewrite !Hadd by assumption.
  rewrite !get_2bit_value_label by (fold nv in Hcover; lia).
  cbn [bind].
  pose proof (label_value_range (array m) (first + e0)) as L0.
  pose proof (label_value_range (array m) (first + e1)) as L1.
  pose proof (label_value_range (array m) (first + e2)) as L2.
  rewrite Z.rem_mod_nonneg by lia. fold s.
  assert (Hs : 0 <= s < 3) by (apply Z.mod_pos_bound; lia).
  assert (Hsel : sel3 (e0, e1, e2) s = Some ei).
  { unfold sel3, ei.
    destruct (Z.eqb_spec s 0); [reflexivity|].
    destruct (Z.eqb_spec s 1); [reflexivity|].
    destruct (Z.eqb_spec s 2); [reflexivity|lia]. }
  rewrite Hsel. cbn [bind].
  assert (Hei : 0 <= ei < nv).
  { unfold ei. destruct (s =? 0); [assumption|]. destruct (s =? 1); assumption. }
  rewrite (Hadd' ei Hei).
  rewrite count_nonzero_pairs_correct by (try assumption; fold nv in Hcover, Hfit; lia).
  cbn [bind]. f_equal.
  rewrite land_OFFSET_MASK.
  pose proof (offset_field_range eos) as Fo.
  pose proof (range_count_bounds (label_nonzero (array m)) first (first + ei) ltac:(lia)) as Rb.
  unfold nonzero_labels.
  unfold add64. rewrite u64_id by (unfold is_u64, two64; lia).
  apply to_int64_id. lia.
Qed.



End LookupFacts.

(** A vertex counts for the rank exactly when its 2-bit label is not [0]. *)
Lemma label_nonzero_value (labels : list Z) (i : Z) :
  label_nonzero labels i = negb (label_value labels i =? 0).
Proof.
  unfold label_nonzero, label_value.
  pose proof (Z.mod_pos_bound i 32 ltac:(lia)) as Hi.
  set (w := nth (Z.to_nat (i / 32)) labels 0).
  set (s := 2 * (i mod 32)).
  set (x := Z.shiftr w s).
  assert (H0 : Z.b2z (Z.testbit w s) = x mod 2).
  { unfold x. rewrite <- (Z.add_0_l s) at 1. rewrite <- Z.shiftr_spec by lia.
    rewrite Z.testbit_spec' by lia. rewrite Z.pow_0_r, Z.div_1_r. reflexivity. }
  assert (H1 : Z.b2z (Z.testbit w (s + 1)) = (x / 2) mod 2).
  { unfold x. rewrite (Z.add_comm s 1). rewrite <- Z.shiftr_spec by lia.
    rewrite Z.testbit_spec' by lia. reflexivity. }
  replace (Z.land x 3) with (x mod 2 + 2 * ((x / 2) mod 2)).
  2:{ change 3 with (Z.ones 2). rewrite Z.land_ones by lia.
      change (2 ^ 2) with (2 * 2). rewrite Z.rem_mul_r by lia. reflexivity. }
  rewrite <- H0, <- H1.
  destruct (Z.testbit w s), (Z.testbit w (s + 1)); reflexivity.
Qed.

(** * The claims *)

(** ** C2 and C7: the rank operator *)

Lemma length_cons_Z (x : Z) (t : list Z) :
  Z.of_nat (length (x :: t)) = Z.of_nat (length t) + 1.
Proof. cbn [length]. lia. Qed.

Lemma giant_labels_length : Z.of_nat (length giant_labels) = 2 ^ 31 + 1.
Proof.
  unfold giant_labels. rewrite length_cons_Z, repeat_length.
  rewrite Z2Nat.id by lia. reflexivity.
Qed.

Lemma giant_labels_u64 : words_u64 giant_labels.
Proof.
  unfold giant_labels, words_u64. constructor.
  - unfold is_u64, two64. lia.
  - apply Forall_forall. intros x Hx. apply repeat_spec in Hx. subst x.
    unfold is_u64, two64. lia.
Qed.

Lemma first_label_counted (t : list Z) (b : Z) :
  0 < b -> 1 <= nonzero_labels 0 b (3 :: t).
Proof.
  intros Hb. unfold nonzero_labels. rewrite range_count_step by exact Hb.
  pose proof (range_count_bounds (label_nonzero (3 :: t)) (0 + 1) b ltac:(lia)).
  change (label_nonzero (3 :: t) 0) with true. cbn [Z.b2z]. lia.
Qed.

(** C2, as stated, fails: on a store of [2^31 + 1] words the block index
    of [end = 2^36] wraps to [-2^31] in its [int], no word is visited, and the
    code answers [0] although vertex [0] is labelled. *)
Lemma count_nonzero_pairs_wraps_on_giant_store :
  words_u64 giant_labels /\
  0 <= 0 <= 2 ^ 36 /\ 2 ^ 36 < 32 * Z.of_nat (length giant_labels) /\
  count_nonzero_pairs 0 (2 ^ 36) giant_labels = Some 0 /\
  1 <= nonzero_labels 0 (2 ^ 36) giant_labels.
Proof.
  split; [exact giant_labels_u64|].
  split; [lia|].
  split; [rewrite giant_labels_length; lia|].
  split.
  - generalize giant_labels. intros l. vm_compute. reflexivity.
  - unfold giant_labels. apply first_label_counted. lia.
Qed.

(** C2, amended: for every array of 64-bit words and vertex indices
    [start <= end] within it whose block indices fit the [int] they are
    stored in ([end < 2^36]), [count_nonzero_pairs] returns the number of
    positions in [[start, end)] whose 2-bit group is not [0b00]. *)
Theorem count_nonzero_pairs_counts (labels : list Z) (start end_ : Z) :
  words_u64 labels ->
  0 <= start <= end_ ->
  end_ <= 32 * Z.of_nat (length labels) ->
  start < 32 * Z.of_nat (length labels) ->
  end_ < 2 ^ 36 ->
  count_nonzero_pairs start end_ labels
  = Some (range_count (label_nonzero labels) start end_).
Proof.
  intros Hw Hse Hend Hstart Hint.
  rewrite count_nonzero_pairs_correct by assumption.
  unfold nonzero_labels. reflexivity.
Qed.

Lemma sample_labels_u64 : words_u64 sample_labels.
Proof. repeat constructor; unfold is_u64, two64; lia. Defined.

Lemma count_nonzero_pairs_counts_witness :
  count_nonzero_pairs 3 70 sample_labels
  = Some (range_count (label_nonzero sample_labels) 3 70)
  /\ range_count (label_nonzero sample_labels) 3 70 = 36.
Proof.
  split.
  - apply (count_nonzero_pairs_counts sample_labels 3 70).
    + exact sample_labels_u64.
    + lia.
    + cbn [length sample_labels]. lia.
    + cbn [length sample_labels]. lia.
    + lia.
  - vm_compute. reflexivity.
Defined.

(** C7, as stated, fails: on the same store, with [a = 0 <= b = 32 <= c = 2^36]
    inside it, the code computes [1 + 0] for the two parts and [0] for the
    whole. *)
Lemma rank_not_additive_on_giant_store :
  0 <= 0 <= 32 /\ 32 <= 2 ^ 36 /\ 2 ^ 36 < 32 * Z.of_nat (length giant_labels) /\
  count_nonzero_pairs 0 32 giant_labels = Some 1 /\
  count_nonzero_pairs 32 (2 ^ 36) giant_labels = Some 0 /\
  count_nonzero_pairs 0 (2 ^ 36) giant_labels = Some 0.
Proof.
  split; [lia|]. split; [lia|].
  split; [rewrite giant_labels_length; lia|].
  unfold giant_labels. generalize (repeat 0 (Z.to_nat (2 ^ 31))). intros t.
  repeat split; vm_compute; reflexivity.
Qed.

(** C7, amended: for every label array and vertex indices [a <= b <= c]
    within it whose block indices fit the [int] they are stored in
    ([c < 2^36]), the ranks of [[a, b)] and [[b, c)] add up to the rank of
    [[a, c)], and the rank of the empty range [[a, a)] is [0]. *)
Theorem count_nonzero_pairs_additive (labels : list Z) (a b c : Z) :
  words_u64 labels ->
  0 <= a <= b -> b <= c ->
  c <= 32 * Z.of_nat (length labels) ->
  b < 32 * Z.of_nat (length labels) ->
  c < 2 ^ 36 ->
  (exists r1 r2 r3,
     count_nonzero_pairs a b labels = Some r1 /\
     count_nonzero_pairs b c labels = Some r2 /\
     count_nonzero_pairs a c labels = Some r3 /\
     r1 + r2 = r3) /\
  count_nonzero_pairs a a labels = Some 0 /\
  count_nonzero_pairs b b labels = Some 0.
Proof.
  intros Hw Hab Hbc Hc Hb Hint.
  split.
  - exists (nonzero_labels a b labels), (nonzero_labels b c labels),
           (nonzero_labels a c labels).
    rewrite !count_nonzero_pairs_correct by (try assumption; lia).
    repeat split. unfold nonzero_labels. apply range_count_split. lia.
  - rewrite !count_nonzero_pairs_correct by (try assumption; lia).
    unfold nonzero_labels. rewrite !range_count_empty. split; reflexivity.
Qed.

Lemma count_nonzero_pairs_additive_witness :
  (exists r1 r2 r3,
     count_nonzero_pairs 3 40 sample_labels = Some r1 /\
     count_nonzero_pairs 40 70 sample_labels = Some r2 /\
     count_nonzero_pairs 3 70 sample_labels = Some r3 /\
     r1 + r2 = r3) /\
  count_nonzero_pairs 3 3 sample_labels = Some 0 /\
  count_nonzero_pairs 40 40 sample_labels = Some 0.
Proof.
  apply (count_nonzero_pairs_additive sample_labels 3 40 70).
  - exact sample_labels_u64.
  - lia.
  - lia.
  - cbn [length sample_labels]. lia.
  - cbn [length sample_labels]. lia.
  - lia.
Defined.

(** ** C6 and C9: vertex offsets *)

(** C6, as stated, fails: for the largest offset field the product by [R]
    passes [2^64], and the code's result is not [floor(field * R / 256)]. *)
Lemma vertex_offset_not_floor :
  is_u64 (2 ^ 56 - 1) /\
  vertex_offset (2 ^ 56 - 1) = 7036874417766398 /\
  vertex_offset_spec (2 ^ 56 - 1) = 79094468455694334 /\
  vertex_offset (2 ^ 56 - 1) <> vertex_offset_spec (2 ^ 56 - 1).
Proof.
  split; [unfold is_u64, two64; lia|].
  split; [vm_compute; reflexivity|].
  split; [vm_compute; reflexivity|].
  vm_compute. discriminate.
Qed.

(** C6, amended: for every directory entry, [vertex_offset] extracts the
    low-56-bit field and returns [floor(field * R / 256)], with
    [R = floor(1.10 * 256) = 281], less [2^56] for each time [field * R]
    passes [2^64]; it is a total function with values in [[0, 2^56)]. *)
Theorem vertex_offset_rescales (entry : Z) :
  R_spec = 281 /\
  vertex_offset entry
  = vertex_offset_spec entry - 2 ^ 56 * (offset_field entry * R_spec / 2 ^ 64) /\
  0 <= vertex_offset entry < 2 ^ 56.
Proof.
  split; [exact R_spec_value|].
  split; [|apply vertex_offset_range].
  rewrite vertex_offset_arith. unfold vertex_offset_spec. rewrite R_spec_value.
  set (x := offset_field entry * 281).
  rewrite (Z.mod_eq x (2 ^ 64)) by lia.
  replace (x - 2 ^ 64 * (x / 2 ^ 64)) with (x + (- 2 ^ 56 * (x / 2 ^ 64)) * 256) by lia.
  rewrite Z.div_add by lia. lia.
Qed.

(** C9: [vertex_offset] multiplies in 64-bit modular arithmetic: its value
    is [((field * 281) mod 2^64) >> 8]; for a field above
    [floor((2^64 - 1) / 281)] that is not [floor(field * 281 / 256)], and the
    two agree exactly when [field * 281 < 2^64]. *)
Theorem vertex_offset_modular (entry : Z) :
  let field := Z.land entry (2 ^ 56 - 1) in
  vertex_offset entry = Z.shiftr ((field * 281) mod 2 ^ 64) 8 /\
  ((2 ^ 64 - 1) / 281 < field -> vertex_offset entry <> field * 281 / 256) /\
  (vertex_offset entry = field * 281 / 256 <-> field * 281 < 2 ^ 64).
Proof.
  intros field.
  assert (Hf : field = offset_field entry).
  { unfold field. change (2 ^ 56 - 1) with (Z.ones 56).
    rewrite Z.land_ones by lia. reflexivity. }
  pose proof (offset_field_range entry) as Hr. rewrite <- Hf in Hr.
  assert (Hv : vertex_offset entry = Z.shiftr ((field * 281) mod 2 ^ 64) 8).
  { rewrite vertex_offset_arith, <- Hf, Z.shiftr_div_pow2 by lia. reflexivity. }
  assert (Hiff : vertex_offset entry = field * 281 / 256 <-> field * 281 < 2 ^ 64).
  { split.
    - intros He. destruct (Z.lt_ge_cases (field * 281) (2 ^ 64)) as [Hlt|Hge]; [exact Hlt|].
      exfalso.
      pose proof (vertex_offset_range entry) as Hvr.
      assert (2 ^ 56 <= field * 281 / 256) by (apply Z.div_le_lower_bound; lia).
      lia.
    - intros Hlt. rewrite Hf. apply vertex_offset_small. rewrite <- Hf. exact Hlt. }
  split; [exact Hv|]. split; [|exact Hiff].
  intros Hbig He. apply Hiff in He.
  assert ((2 ^ 64 - 1) / 281 * 281 + 281 <= field * 281) by lia.
  pose proof (Z.mod_pos_bound (2 ^ 64 - 1) 281 ltac:(lia)).
  pose proof (Z.div_mod (2 ^ 64 - 1) 281 ltac:(lia)).
  lia.
Qed.

Lemma vertex_offset_modular_witness :
  (2 ^ 64 - 1) / 281 < Z.land (2 ^ 56 - 1) (2 ^ 56 - 1) /\
  vertex_offset (2 ^ 56 - 1) <> Z.land (2 ^ 56 - 1) (2 ^ 56 - 1) * 281 / 256.
Proof.
  split.
  - vm_compute. reflexivity.
  - apply (proj1 (proj2 (vertex_offset_modular (2 ^ 56 - 1)))).
    vm_compute. reflexivity.
Defined.

(** ** Bytes *)

Lemma Z_of_byte_range (b : byte) : 0 <= Z_of_byte b < 256.
Proof.
  unfold Z_of_byte. pose proof (Byte.to_N_bounded b). lia.
Qed.

Lemma Z_of_byte_of_Z (z : Z) : Z_of_byte (byte_of_Z z) = z mod 256.
Proof.
  pose proof (Z.mod_pos_bound z 256 ltac:(lia)) as Hz.
  unfold Z_of_byte, byte_of_Z.
  destruct (Byte.of_N (Z.to_N (z mod 256))) as [b|] eqn:Hb.
  - apply Byte.to_of_N in Hb. rewrite Hb. apply Z2N.id. lia.
  - apply Byte.of_N_None_iff in Hb. lia.
Qed.

Lemma byte_of_Z_of_byte (b : byte) : byte_of_Z (Z_of_byte b) = b.
Proof.
  pose proof (Z_of_byte_range b) as Hr.
  unfold byte_of_Z. rewrite Z.mod_small by exact Hr.
  unfold Z_of_byte. rewrite N2Z.id, Byte.of_to_N. reflexivity.
Qed.

Lemma length_le_split (n : nat) (w : Z) : length (le_split n w) = n.
Proof.
  revert w; induction n as [|n IH]; intros w; cbn [le_split length]; [reflexivity|].
  rewrite IH. reflexivity.
Qed.

Lemma le_combine_split (n : nat) (w : Z) :
  le_combine (le_split n w) = w mod 2 ^ (8 * Z.of_nat n).
Proof.
  revert w; induction n as [|n IH]; intros w; cbn [le_split le_combine].
  - change (2 ^ (8 * Z.of_nat 0)) with 1. rewrite Z.mod_1_r. reflexivity.
  - rewrite IH, Z_of_byte_of_Z.
    replace (8 * Z.of_nat (S n)) with (8 + 8 * Z.of_nat n) by lia.
    rewrite Z.pow_add_r by lia. change (2 ^ 8) with 256.
    rewrite Z.rem_mul_r by lia. reflexivity.
Qed.

Lemma le_combine_range (l : list byte) :
  0 <= le_combine l < 2 ^ (8 * Z.of_nat (length l)).
Proof.
  induction l as [|b t IH]; cbn [le_combine length].
  - change (2 ^ (8 * Z.of_nat 0)) with 1. lia.
  - pose proof (Z_of_byte_range b).
    replace (8 * Z.of_nat (S (length t))) with (8 + 8 * Z.of_nat (length t)) by lia.
    rewrite Z.pow_add_r by lia. change (2 ^ 8) with 256. lia.
Qed.

(** ** C5, C8 and C10: the triple, the two entry points, the chunk index *)

Section EntryPoints.

Variable spooky_short : list byte -> Z -> hash256.
Variable spooky_short_rehash : hash256 -> Z -> hash256.

(** C5: for every [int num_variables >= 1] and every rehashed value,
    [triple_to_equation] takes [shift = 64 - bit_length(num_variables)] and
    [mask = 2^shift - 1], sets [e[i] = ((hash[i] & mask) * num_variables) >> shift]
    for [i = 0, 1, 2], and each [e[i]] lies in [[0, num_variables)]. *)
Theorem triple_to_equation_in_range (triple : hash256) (seed num_variables : Z) :
  1 <= num_variables < 2 ^ 31 ->
  let hash := spooky_short_rehash triple seed in
  let shift := 64 - bit_length num_variables in
  let mask := 2 ^ shift - 1 in
  clzll (of_int num_variables) = Some shift /\
  exists e0 e1 e2,
    triple_to_equation spooky_short_rehash triple seed num_variables = Some (e0, e1, e2) /\
    e0 = Z.shiftr (Z.land (word0 hash) mask * num_variables) shift /\
    e1 = Z.shiftr (Z.land (word1 hash) mask * num_variables) shift /\
    e2 = Z.shiftr (Z.land (word2 hash) mask * num_variables) shift /\
    (0 <= e0 < num_variables) /\ (0 <= e1 < num_variables) /\ (0 <= e2 < num_variables).
Proof.
  intros Hnv hash shift mask.
  split.
  - unfold of_int. rewrite u64_id by (unfold is_u64, two64; lia).
    apply clzll_bit_length. unfold two64. lia.
  - pose proof (triple_to_equation_value spooky_short_rehash triple seed num_variables Hnv)
      as Hv.
    pose proof (derive_triple_range spooky_short_rehash triple seed num_variables Hnv) as Hr.
    unfold derive_triple in Hr. cbv zeta in Hv, Hr.
    eexists _, _, _. split; [exact Hv|].
    split; [reflexivity|]. split; [reflexivity|]. split; [reflexivity|].
    exact Hr.
Qed.

(** C8: [get_uint64_t] on a key returns what [get_byte_array] returns on
    the eight bytes of its native (low byte first) encoding. *)
Theorem get_uint64_t_as_bytes (m : mph) (key : Z) :
  get_uint64_t spooky_short spooky_short_rehash m key
  = get_byte_array spooky_short spooky_short_rehash m (le_split 8 key) 8
  /\ length (le_split 8 key) = 8%nat
  /\ le_combine (le_split 8 key) = key mod 2 ^ 64.
Proof.
  split; [|split].
  - rewrite get_uint64_t_lookup.
    rewrite get_byte_array_lookup by (rewrite length_le_split; lia).
    replace (firstn (Z.to_nat 8) (le_split 8 key)) with (le_split 8 key); [reflexivity|].
    symmetry. apply firstn_all2. rewrite length_le_split. lia.
  - apply length_le_split.
  - rewrite le_combine_split. reflexivity.
Qed.

(** C10: the chunk index is stored in an [int]: the chunk the code uses
    is the spec's [h[0] >> chunk_shift] only when that value is below [2^31]
    (and then it is, for a shift the code can perform); and for every index
    with [chunk_shift <= 32] there is a hash word whose chunk index is stored
    as a negative [int], different from the spec's chunk, so that both entry
    points read outside the directory. *)
Theorem chunk_index_truncated (m : mph) :
  (forall h c, is_u64 (word0 h) -> chunk_of m h = Some c ->
     (c = Z.shiftr (word0 h) (chunk_shift m) <-> Z.shiftr (word0 h) (chunk_shift m) < 2 ^ 31))
  /\
  (forall h, 0 <= chunk_shift m < 64 -> is_u64 (word0 h) ->
     Z.shiftr (word0 h) (chunk_shift m) < 2 ^ 31 ->
     chunk_of m h = Some (Z.shiftr (word0 h) (chunk_shift m)))
  /\
  (0 <= chunk_shift m <= 32 ->
   exists h0, is_u64 h0 /\
     forall h, word0 h = h0 ->
       exists c, chunk_of m h = Some c /\ c < 0 /\ c <> Z.shiftr h0 (chunk_shift m) /\
         idx (edge_offset_and_seed m) c = None /\
         (forall key len, spooky_short (firstn (Z.to_nat len) key) (global_seed m) = h ->
            get_byte_array spooky_short spooky_short_rehash m key len = None) /\
         (forall key, spooky_short (le_split 8 key) (global_seed m) = h ->
            get_uint64_t spooky_short spooky_short_rehash m key = None)).
Proof.
  assert (Hco : forall h c, chunk_of m h = Some c ->
                  0 <= chunk_shift m < 64 /\ c = to_int (shr64 (word0 h) (chunk_shift m))).
  { intros h c. unfold chunk_of.
    destruct (Z.leb_spec 0 (chunk_shift m)); destruct (Z.ltb_spec (chunk_shift m) 64);
      cbn [andb]; try discriminate.
    intros H'; inversion H'. split; [lia | reflexivity]. }
  assert (Hdef : forall h, 0 <= chunk_shift m < 64 ->
                   chunk_of m h = Some (to_int (shr64 (word0 h) (chunk_shift m)))).
  { intros h Hs. unfold chunk_of.
    destruct (Z.leb_spec 0 (chunk_shift m)); [|lia].
    destruct (Z.ltb_spec (chunk_shift m) 64); [|lia]. reflexivity. }
  assert (Hiff : forall h, 0 <= chunk_shift m < 64 -> is_u64 (word0 h) ->
            (to_int (shr64 (word0 h) (chunk_shift m)) = Z.shiftr (word0 h) (chunk_shift m)
             <-> Z.shiftr (word0 h) (chunk_shift m) < 2 ^ 31)).
  { intros h Hs Hh. unfold shr64. set (v := Z.shiftr (word0 h) (chunk_shift m)).
    assert (Hv : 0 <= v) by (apply Z.shiftr_nonneg; unfold is_u64 in Hh; lia).
    pose proof (to_int_range v) as Hr. unfold is_int in Hr.
    split.
    - intros <-. lia.
    - intros Hlt. apply to_int_id. unfold is_int. lia. }
  split; [|split].
  - intros h c Hh Hc. destruct (Hco h c Hc) as [Hs ->]. apply Hiff; assumption.
  - intros h Hs Hh Hlt. rewrite (Hdef h Hs). f_equal. apply Hiff; assumption.
  - intros [H0 H32]. assert (Hs : 0 <= chunk_shift m < 64) by lia.
    exists (2 ^ (31 + chunk_shift m)).
    assert (Hshr : Z.shiftr (2 ^ (31 + chunk_shift m)) (chunk_shift m) = 2 ^ 31).
    { rewrite Z.shiftr_div_pow2 by lia. rewrite Z.pow_add_r by lia.
      apply Z.div_mul. apply Z.pow_nonzero; lia. }
    split.
    { unfold is_u64, two64. split; [apply Z.pow_nonneg; lia|].
      apply Z.pow_lt_mono_r; lia. }
    intros h Hh. exists (- 2 ^ 31).
    assert (Hc : chunk_of m h = Some (- 2 ^ 31)).
    { rewrite (Hdef h Hs). unfold shr64. rewrite Hh, Hshr. reflexivity. }
    split; [exact Hc|]. split; [lia|]. split; [rewrite Hshr; lia|].
    split; [apply idx_neg; lia|].
    split.
    + intros key len Hk. unfold get_byte_array.
      destruct ((0 <=? len) && (len <=? Z.of_nat (length key))); cbn [bind]; [|reflexivity].
      rewrite Hk, Hc. cbn [bind]. rewrite idx_neg by lia. reflexivity.
    + intros key Hk. unfold get_uint64_t.
      rewrite Hk, Hc. cbn [bind]. rewrite idx_neg by lia. reflexivity.
Qed.

End EntryPoints.

(** *** A witness for C5 *)

Lemma triple_to_equation_in_range_witness :
  exists e0 e1 e2,
    triple_to_equation toy_rehash (7, 2 ^ 64 - 1, 12345678901234567890, 2 ^ 63) 0 5
    = Some (e0, e1, e2) /\
    (0 <= e0 < 5) /\ (0 <= e1 < 5) /\ (0 <= e2 < 5).
Proof.
  destruct (triple_to_equation_in_range toy_rehash
              (7, 2 ^ 64 - 1, 12345678901234567890, 2 ^ 63) 0 5 ltac:(lia))
    as [_ (e0 & e1 & e2 & H & _ & _ & _ & R)].
  exists e0, e1, e2. split; [exact H | exact R].
Defined.

(** ** C4: the answer [-1] *)

Section MinusOne.

Variable spooky_short : list byte -> Z -> hash256.
Variable spooky_short_rehash : hash256 -> Z -> hash256.

Lemma evaluates_lookup (m : mph) (h : hash256) (result : option Z) :
  evaluates spooky_short spooky_short_rehash m h result -> result = lookup spooky_short_rehash m h.
Proof.
  intros H. inversion H as [key len Hlen|key]; subst.
  - apply get_byte_array_lookup. exact Hlen.
  - apply get_uint64_t_lookup.
Qed.


End MinusOne.


(** *** Witnesses for C4 and C10 *)

Lemma small_index_labels_u64 : words_u64 (array small_index).
Proof. repeat constructor; unfold is_u64, two64; lia. Defined.


Lemma chunk_index_truncated_witness :
  0 <= chunk_shift shift32_index <= 32 /\
  exists h0, is_u64 h0 /\
    forall h, word0 h = h0 ->
      exists c, chunk_of shift32_index h = Some c /\ c < 0 /\
        idx (edge_offset_and_seed shift32_index) c = None.
Proof.
  split; [cbn [chunk_shift shift32_index]; lia|].
  destruct (proj2 (proj2 (chunk_index_truncated toy_hash toy_rehash shift32_index))
                  ltac:(cbn [chunk_shift shift32_index]; lia))
    as (h0 & Hu & Hall).
  exists h0. split; [exact Hu|].
  intros h Hh. destruct (Hall h Hh) as (c & Hc & Hneg & _ & Hidx & _).
  exists c. split; [exact Hc|]. split; [exact Hneg | exact Hidx].
Defined.

(** ** C3: loading *)

Lemma read_whole (g count : Z) (s : list byte) :
  count <= g ->
  read g count s = (firstn (Z.to_nat count) s, skipn (Z.to_nat count) s).
Proof. intros H. unfold read. rewrite Z.min_l by lia. reflexivity. Qed.

Lemma read_nil (g count : Z) : read g count [] = ([], []).
Proof. unfold read. rewrite firstn_nil, skipn_nil. reflexivity. Qed.

Lemma read_obj_whole (g old : Z) (s : list byte) :
  8 <= g -> (8 <= length s)%nat ->
  read_obj g old s = (le_combine (firstn 8 s), skipn 8 s).
Proof.
  intros Hg Hs. unfold read_obj. rewrite read_whole by exact Hg.
  change (Z.to_nat 8) with 8%nat.
  rewrite length_firstn, Nat.min_l by exact Hs.
  rewrite skipn_all2 by (rewrite length_le_split; lia).
  rewrite app_nil_r. reflexivity.
Qed.

Lemma read_array_whole (g count : Z) (zeros : list Z) (s : list byte) :
  count <= g ->
  read_array g (Some zeros) count s
  = (words_of_bytes (length zeros) (firstn (Z.to_nat count) s), skipn (Z.to_nat count) s).
Proof. intros Hg. unfold read_array. rewrite read_whole by exact Hg. reflexivity. Qed.

Lemma calloc_some (heap_has : Z -> Z -> bool) (n sz : Z) (block : list Z) :
  calloc heap_has n sz = Some block ->
  n * sz < two64 /\ block = repeat 0 (Z.to_nat n).
Proof.
  unfold calloc. destruct (Z.ltb_spec (n * sz) two64); cbn [andb]; [|discriminate].
  destruct (heap_has n sz); [|discriminate].
  intros H'; inversion H'. split; [assumption | reflexivity].
Qed.

Lemma length_flat_words (ws : list Z) :
  length (flat_map (le_split 8) ws) = (8 * length ws)%nat.
Proof.
  induction ws as [|w t IH]; cbn [flat_map length]; [reflexivity|].
  rewrite length_app, length_le_split, IH. lia.
Qed.

Lemma read_obj_encoded (g old v : Z) (s : list byte) :
  8 <= g -> is_u64 v -> read_obj g old (le_split 8 v ++ s) = (v, s).
Proof.
  intros Hg Hv.
  rewrite read_obj_whole by (try exact Hg; rewrite length_app, length_le_split; lia).
  assert (Hf : firstn 8 (le_split 8 v ++ s) = le_split 8 v).
  { rewrite firstn_app, length_le_split, Nat.sub_diag.
    rewrite firstn_all2 by (rewrite length_le_split; lia).
    cbn [firstn]. apply app_nil_r. }
  assert (Hs : skipn 8 (le_split 8 v ++ s) = s).
  { rewrite skipn_app, length_le_split, Nat.sub_diag.
    rewrite skipn_all2 by (rewrite length_le_split; lia). reflexivity. }
  rewrite Hf, Hs, le_combine_split.
  f_equal. apply Z.mod_small. exact Hv.
Qed.

Lemma words_of_bytes_encoded (ws : list Z) (s : list byte) :
  words_u64 ws ->
  words_of_bytes (length ws) (flat_map (le_split 8) ws ++ s) = ws.
Proof.
  intros Hw. induction Hw as [|w t Hwu Ht IH]; cbn [length flat_map words_of_bytes];
    [reflexivity|].
  rewrite <- app_assoc.
  assert (Hf : firstn 8 (le_split 8 w ++ flat_map (le_split 8) t ++ s) = le_split 8 w).
  { rewrite firstn_app, length_le_split, Nat.sub_diag.
    rewrite firstn_all2 by (rewrite length_le_split; lia).
    cbn [firstn]. apply app_nil_r. }
  assert (Hs : skipn 8 (le_split 8 w ++ flat_map (le_split 8) t ++ s)
               = flat_map (le_split 8) t ++ s).
  { rewrite skipn_app, length_le_split, Nat.sub_diag.
    rewrite skipn_all2 by (rewrite length_le_split; lia). reflexivity. }
  rewrite Hf, Hs, IH, le_combine_split.
  f_equal. apply Z.mod_small. exact Hwu.
Qed.

Lemma read_array_encoded (g : Z) (ws : list Z) (s : list byte) :
  Z.of_nat (length ws) * 8 <= g ->
  words_u64 ws ->
  read_array g (Some (repeat 0 (length ws))) (Z.of_nat (length ws) * 8)
             (flat_map (le_split 8) ws ++ s)
  = (ws, s).
Proof.
  intros Hg Hw. rewrite read_array_whole by exact Hg.
  rewrite repeat_length.
  replace (Z.to_nat (Z.of_nat (length ws) * 8))
    with (length (flat_map (le_split 8) ws)) by (rewrite length_flat_words; lia).
  rewrite firstn_app, Nat.sub_diag, firstn_all. cbn [firstn].
  rewrite skipn_app, Nat.sub_diag, skipn_all. cbn [skipn app].
  rewrite words_of_bytes_encoded by exact Hw. reflexivity.
Qed.

Section LoadFacts.

Variable heap_has : Z -> Z -> bool.
Variable t_uninit : Z.
Variable granted : nat -> Z -> Z.

(** C3, amended: [load_mph] reads the fields in their fixed order and has
    no failure result: whenever the struct itself is allocated it returns an
    index, for every stream and whatever each [read] transfers.  In the runs
    in which every [read] is handed the bytes it asks for, that index is the
    one of the spec's loader on every stream that loader accepts, and the
    index itself on its serialization when both arrays are allocated; on the
    streams the spec rejects as truncated or not allocatable, and when a
    [read] transfers less than it asks for, it is a partial one. *)
Theorem load_mph_always_returns (s : list byte) :
  heap_has 1 sizeof_mph = true ->
  (exists m, load_mph heap_has t_uninit granted s = Some m) /\
  (forall m,
     load_spec heap_has s = inr m ->
     reads_in_full granted (edge_offset_and_seed_length m) (array_length m) ->
     load_mph heap_has t_uninit granted s = Some m) /\
  (forall m rest,
     serializable m ->
     heap_has (edge_offset_and_seed_length m) 8 = true ->
     heap_has (array_length m) 8 = true ->
     reads_in_full granted (edge_offset_and_seed_length m) (array_length m) ->
     load_mph heap_has t_uninit granted (serialize m ++ rest) = Some m).
Proof.
  intros Hheap.
  assert (Hstruct : calloc heap_has 1 sizeof_mph = Some (repeat 0 (Z.to_nat 1))).
  { unfold calloc. rewrite Hheap. reflexivity. }
  split; [|split].
  3:{ intros m rest Hm Hhd Hha (G0 & G1 & G2 & G3 & G4 & G5 & G6).
      destruct Hm as [H1 H2 H3 H4 H5 H6 H7 H8 H9].
      unfold load_mph, serialize. rewrite Hstruct. cbn [bind].
      rewrite <- !app_assoc.
      rewrite (read_obj_encoded _ _ _ _ G0 H1).
      rewrite (read_obj_encoded _ _ _ _ G1) by (unfold is_u64, two64; lia).
      rewrite (read_obj_encoded _ _ _ _ G2 H3).
      assert (Hdl : 0 <= edge_offset_and_seed_length m) by lia.
      assert (Hal : 0 <= array_length m) by lia.
      rewrite (read_obj_encoded _ _ _ _ G3) by (unfold is_u64; lia).
      cbv zeta.
      unfold calloc at 1.
      destruct (Z.ltb_spec (edge_offset_and_seed_length m * 8) two64); [|lia].
      rewrite Hhd. cbn [andb].
      unfold mul64 at 1 2.
      rewrite (u64_id (edge_offset_and_seed_length m * 8)) by (unfold is_u64; lia).
      revert G4. rewrite H4 at 1 2 3 4 5. rewrite Nat2Z.id. intros G4.
      rewrite (read_array_encoded _ _ _ G4 H5).
      rewrite (read_obj_encoded _ _ _ _ G5) by (unfold is_u64; lia).
      unfold calloc.
      destruct (Z.ltb_spec (array_length m * 8) two64); [|lia].
      rewrite Hha. cbn [andb].
      unfold mul64. rewrite (u64_id (array_length m * 8)) by (unfold is_u64; lia).
      revert G6. rewrite H7 at 1 2 3 4 5. rewrite Nat2Z.id. intros G6.
      rewrite <- (app_nil_r (flat_map (le_split 8) (array m) ++ rest)), <- app_assoc.
      rewrite (read_array_encoded _ _ _ G6 H8).
      rewrite Z.mod_small by lia.
      destruct m; reflexivity. }
  - unfold load_mph. rewrite Hstruct. cbn [bind]. cbv zeta.
    repeat match goal with
           | |- context [let '(_, _) := ?p in _] => destruct p
           end.
    eexists. reflexivity.
  - intros m H Hfull. unfold load_spec in H.
    destruct (Z.ltb_spec (Z.of_nat (length s)) 32) as [|Hlen]; [discriminate|].
    assert (L1 : (24 <= length (skipn 8 s))%nat) by (rewrite length_skipn; lia).
    assert (L2 : (16 <= length (skipn 8 (skipn 8 s)))%nat) by (rewrite length_skipn; lia).
    assert (L3 : (8 <= length (skipn 8 (skipn 8 (skipn 8 s))))%nat)
      by (rewrite length_skipn; lia).
    rewrite (read_obj_whole 8 0 s) in H by lia.
    rewrite (read_obj_whole 8 0 (skipn 8 s)) in H by lia.
    rewrite (read_obj_whole 8 0 (skipn 8 (skipn 8 s))) in H by lia.
    rewrite (read_obj_whole 8 0 (skipn 8 (skipn 8 (skipn 8 s)))) in H by lia.
    set (dlen := le_combine (firstn 8 (skipn 8 (skipn 8 (skipn 8 s))))) in *.
    assert (Hd0 : 0 <= dlen) by (unfold dlen; apply le_combine_range).
    destruct (calloc heap_has dlen 8) as [block|] eqn:Hcd; [|discriminate].
    destruct (calloc_some _ _ _ _ Hcd) as [Hdlt _].
    set (s4 := skipn 8 (skipn 8 (skipn 8 (skipn 8 s)))) in *.
    destruct (Z.ltb_spec (Z.of_nat (length s4)) (dlen * 8 + 8)) as [|Hlen4]; [discriminate|].
    rewrite (read_array_whole (dlen * 8)) in H by lia.
    set (s5 := skipn (Z.to_nat (dlen * 8)) s4) in *.
    assert (L5 : (8 <= length s5)%nat) by (unfold s5; rewrite length_skipn; lia).
    rewrite (read_obj_whole 8 0 s5) in H by lia.
    set (alen := le_combine (firstn 8 s5)) in *.
    assert (Ha0 : 0 <= alen) by (unfold alen; apply le_combine_range).
    destruct (calloc heap_has alen 8) as [block'|] eqn:Hca; [|discriminate].
    destruct (calloc_some _ _ _ _ Hca) as [Halt _].
    destruct (Z.ltb_spec (Z.of_nat (length (skipn 8 s5))) (alen * 8)); [discriminate|].
    rewrite (read_array_whole (alen * 8)) in H by lia.
    inversion H as [Hm]. rewrite <- Hm in Hfull.
    cbn [edge_offset_and_seed_length array_length] in Hfull.
    destruct Hfull as (G0 & G1 & G2 & G3 & G4 & G5 & G6).
    assert (Hmd : mul64 dlen 8 = dlen * 8).
    { unfold mul64. apply u64_id. unfold is_u64. lia. }
    assert (Hma : mul64 alen 8 = alen * 8).
    { unfold mul64. apply u64_id. unfold is_u64. lia. }
    unfold load_mph. rewrite Hstruct. cbn [bind].
    rewrite (read_obj_whole _ 0 s G0) by lia.
    rewrite (read_obj_whole _ t_uninit (skipn 8 s) G1) by lia.
    rewrite (read_obj_whole _ 0 (skipn 8 (skipn 8 s)) G2) by lia.
    rewrite (read_obj_whole _ 0 (skipn 8 (skipn 8 (skipn 8 s))) G3) by lia.
    fold dlen s4. cbv zeta. rewrite Hmd, Hcd.
    rewrite (read_array_whole _ _ _ _ G4). fold s5.
    rewrite (read_obj_whole _ 0 s5 G5) by lia.
    fold alen. rewrite Hma, Hca.
    rewrite (read_array_whole _ _ _ _ G6).
    reflexivity.
Qed.

End LoadFacts.

(** C3, as stated, fails: from a stream of three bytes [load_mph] returns
    an index, its [chunk_shift] taken from the uninitialised [t], where the
    spec reports a truncated input; from a stream that declares an array no
    allocator can provide it returns an index with a null directory, where
    the spec reports an allocation error; and from the serialization of the
    small index, when the [read] of the directory transfers 12 of its 24
    bytes, it returns another index, the label store's length taken from the
    middle of the directory and the label store null. *)
Lemma load_mph_returns_partial_index :
  load_spec heap_unbounded [x07; x01; x02] = inl TruncatedInputError /\
  load_mph heap_unbounded t_garbage grant_all [x07; x01; x02]
  = Some (Build_mph 131335 33 0 0 [] 0 []) /\
  load_spec heap_unbounded overlong_stream = inl AllocationError /\
  load_mph heap_unbounded t_garbage grant_all overlong_stream
  = Some (Build_mph 1 63 42 (2 ^ 61) [] 0 []) /\
  load_spec heap_small small_stream = inr small_index /\
  load_mph heap_small t_garbage grant_short_directory small_stream
  = Some (Build_mph 4 63 42 3 [504403158265495552; 3; 0] 17330864128 []).
Proof.
  split; [vm_compute; reflexivity|].
  split; [vm_compute; reflexivity|].
  split; [vm_compute; reflexivity|].
  split; [vm_compute; reflexivity|].
  split; [vm_compute; reflexivity|].
  vm_compute. reflexivity.
Qed.

Lemma load_mph_always_returns_witness :
  heap_unbounded 1 sizeof_mph = true /\
  reads_in_full grant_all 3 1 /\
  load_mph heap_unbounded t_garbage grant_all small_stream = Some small_index.
Proof.
  assert (Hfull : reads_in_full grant_all 3 1)
    by (unfold reads_in_full, grant_all; lia).
  split; [reflexivity|]. split; [exact Hfull|].
  apply (proj1 (proj2 (load_mph_always_returns heap_unbounded t_garbage grant_all
                         small_stream eq_refl))).
  - vm_compute. reflexivity.
  - exact Hfull.
Defined.

(** ** C1: a permutation of [[0, n)] *)

Lemma filter_length_split (A : Type) (f : A -> Z) (c : Z) (l : list A) :
  Nat.add (length (filter (fun x => f x <? c) l)) (length (filter (fun x => f x =? c) l))
  = length (filter (fun x => f x <? c + 1) l).
Proof.
  induction l as [|x t IH]; cbn [filter]; [reflexivity|].
  destruct (Z.ltb_spec (f x) c), (Z.eqb_spec (f x) c), (Z.ltb_spec (f x) (c + 1));
    cbn [length]; lia.
Qed.

Lemma filter_length_mono (A : Type) (p q : A -> bool) (l : list A) :
  (forall x, p x = true -> q x = true) ->
  (length (filter p l) <= length (filter q l))%nat.
Proof.
  intros H. induction l as [|x t IH]; cbn [filter]; [lia|].
  destruct (p x) eqn:Hp.
  - rewrite (H x Hp). cbn [length]. lia.
  - destruct (q x); cbn [length]; lia.
Qed.

Lemma filter_length_le (A : Type) (p : A -> bool) (l : list A) :
  (length (filter p l) <= length l)%nat.
Proof.
  induction l as [|x t IH]; cbn [filter]; [lia|].
  destruct (p x); cbn [length]; lia.
Qed.

Lemma filter_length_pos (A : Type) (p : A -> bool) (l : list A) (x : A) :
  In x l -> p x = true -> (1 <= length (filter p l))%nat.
Proof.
  intros Hin Hp.
  assert (Hf : In x (filter p l)) by (apply filter_In; split; assumption).
  destruct (filter p l); [contradiction | cbn [length]; lia].
Qed.

(** A labelled vertex separates the ranks before and after it. *)
Lemma rank_before_labelled (labels : list Z) (a v b : Z) :
  a <= v < b -> label_nonzero labels v = true ->
  nonzero_labels a v labels < nonzero_labels a b labels.
Proof.
  intros H Hl. unfold nonzero_labels.
  rewrite <- (range_count_split _ a v b) by lia.
  rewrite (range_count_step _ v b) by lia. rewrite Hl. cbn [Z.b2z].
  pose proof (range_count_bounds (label_nonzero labels) (v + 1) b ltac:(lia)). lia.
Qed.

Lemma rank_monotone (labels : list Z) (a v w : Z) :
  a <= v <= w -> nonzero_labels a v labels <= nonzero_labels a w labels.
Proof.
  intros H. unfold nonzero_labels.
  rewrite <- (range_count_split _ a v w) by lia.
  pose proof (range_count_bounds (label_nonzero labels) v w ltac:(lia)). lia.
Qed.

Lemma rank_nonempty (labels : list Z) (a b : Z) :
  1 <= nonzero_labels a b labels -> a < b.
Proof.
  intros H. destruct (Z.lt_ge_cases a b) as [Hlt|Hge]; [exact Hlt|].
  unfold nonzero_labels, range_count in H.
  replace (Z.to_nat (b - a)) with 0%nat in H by lia. cbn [count_from] in H. lia.
Qed.

Section Construction.

Variable spooky_short : list byte -> Z -> hash256.
Variable spooky_short_rehash : hash256 -> Z -> hash256.
Variable m : mph.
Variable keys : list (list byte).
Hypothesis Inv : construction_invariants spooky_short spooky_short_rehash m keys.
Hypothesis Fit : int_magnitudes spooky_short m keys.

Lemma chunk_has_vertices (k : list byte) :
  In k keys ->
  1 <= chunk_vertices m (chunk_index spooky_short m k) < 2 ^ 31.
Proof.
  intros Hin. destruct (per_chunk _ _ _ _ Inv k Hin) as [_ _ _ Hcount _].
  split; [|exact (vertices_fit _ _ _ Fit k Hin)].
  assert (Hpos : (1 <= length (keys_in_chunk spooky_short m keys
                                 (chunk_index spooky_short m k)))%nat).
  { unfold keys_in_chunk. apply (filter_length_pos _ _ _ k Hin). apply Z.eqb_refl. }
  assert (Hlt : chunk_first m (chunk_index spooky_short m k)
                < chunk_first m (chunk_index spooky_short m k + 1)).
  { apply (rank_nonempty (array m)). rewrite Hcount. lia. }
  unfold chunk_vertices. lia.
Qed.

Lemma chosen_in_chunk (k : list byte) :
  In k keys ->
  chunk_first m (chunk_index spooky_short m k)
  <= chosen_vertex spooky_short spooky_short_rehash m k
  < chunk_first m (chunk_index spooky_short m k + 1).
Proof.
  intros Hin. pose proof (chunk_has_vertices k Hin) as Hnv.
  unfold chosen_vertex, edge.
  pose proof (derive_triple_range spooky_short_rehash (key_hash spooky_short m k)
                (Z.land (entry m (chunk_index spooky_short m k)) (not64 OFFSET_MASK))
                (chunk_vertices m (chunk_index spooky_short m k)) Hnv) as Hr.
  destruct (derive_triple _ _ _ _) as [[e0 e1] e2].
  destruct Hr as (R0 & R1 & R2).
  unfold chunk_vertices in R0, R1, R2.
  cbv zeta.
  match goal with |- context [if ?s =? 0 then _ else _] => destruct (s =? 0) end;
    [lia|].
  match goal with |- context [if ?s =? 1 then _ else _] => destruct (s =? 1) end; lia.
Qed.

Lemma key_chunk_of (k : list byte) :
  In k keys ->
  chunk_of m (key_hash spooky_short m k) = Some (chunk_index spooky_short m k).
Proof.
  intros Hin. destruct (per_chunk _ _ _ _ Inv k Hin) as [[Hc _] _ _ _ _].
  pose proof (chunk_fits _ _ _ Fit k Hin) as Hc'.
  pose proof (shift_fits _ _ _ Fit) as Hs.
  unfold chunk_of.
  destruct (Z.leb_spec 0 (chunk_shift m)); [|lia].
  destruct (Z.ltb_spec (chunk_shift m) 64); [|lia].
  cbn [andb]. f_equal. unfold shr64. apply to_int_id.
  unfold is_int, chunk_index in *. lia.
Qed.

(** Every key of the set evaluates to its ordinal. *)
Lemma get_byte_array_ordinal (k : list byte) :
  In k keys ->
  get_byte_array spooky_short spooky_short_rehash m k (Z.of_nat (length k))
  = Some (ordinal spooky_short spooky_short_rehash m k).
Proof.
  intros Hin.
  rewrite get_byte_array_lookup by lia.
  rewrite Nat2Z.id, firstn_all.
  fold (key_hash spooky_short m k).
  destruct (per_chunk _ _ _ _ Inv k Hin) as [[Hc Hdir] _ Hcover _ _].
  pose proof (chunk_fits _ _ _ Fit k Hin) as Hc'.
  pose proof (lookup_value spooky_short_rehash m (key_hash spooky_short m k)
                (chunk_index spooky_short m k) (key_chunk_of k Hin)
                (conj Hc Hc') Hdir) as Hv.
  cbv zeta in Hv.
  specialize (Hv (chunk_has_vertices k Hin) (labels_u64 _ _ _ _ Inv) Hcover
                 (blocks_fit _ _ _ Fit k Hin)).
  unfold ordinal, chosen_vertex, edge, chunk_vertices, chunk_first, entry.
  unfold chunk_vertices, chunk_first, entry in Hv.
  destruct (derive_triple _ _ _ _) as [[e0 e1] e2].
  exact Hv.
Qed.

Lemma ordinal_in_chunk_range (k : list byte) :
  In k keys ->
  Z.of_nat (length (keys_before spooky_short m keys (chunk_index spooky_short m k)))
  <= ordinal spooky_short spooky_short_rehash m k
  < Z.of_nat (length (keys_before spooky_short m keys (chunk_index spooky_short m k + 1))).
Proof.
  intros Hin.
  destruct (per_chunk _ _ _ _ Inv k Hin) as [_ Hoff _ Hcount Hlab].
  pose proof (chosen_in_chunk k Hin) as Hch.
  pose proof (rank_before_labelled (array m) _ _ _ Hch Hlab) as Hlt.
  rewrite Hcount in Hlt.
  pose proof (filter_length_split _ (chunk_index spooky_short m)
                (chunk_index spooky_short m k) keys) as Hsplit.
  unfold ordinal. rewrite Hoff.
  unfold keys_before, keys_in_chunk in *.
  assert (0 <= nonzero_labels (chunk_first m (chunk_index spooky_short m k))
                 (chosen_vertex spooky_short spooky_short_rehash m k) (array m)).
  { unfold nonzero_labels, range_count. apply count_from_bounds. }
  lia.
Qed.

Lemma ordinal_range (k : list byte) : In k keys -> 0 <= ordinal spooky_short spooky_short_rehash m k < size m.
Proof.
  intros Hin. pose proof (ordinal_in_chunk_range k Hin) as H.
  rewrite (key_count _ _ _ _ Inv).
  pose proof (filter_length_le _
                (fun k' => chunk_index spooky_short m k'
                           <? chunk_index spooky_short m k + 1) keys).
  unfold keys_before in H. lia.
Qed.

Lemma ordinal_injective (k k' : list byte) :
  In k keys -> In k' keys -> ordinal spooky_short spooky_short_rehash m k = ordinal spooky_short spooky_short_rehash m k' -> k = k'.
Proof.
  intros Hin Hin' Heq.
  pose proof (ordinal_in_chunk_range k Hin) as Hr.
  pose proof (ordinal_in_chunk_range k' Hin') as Hr'.
  assert (Hmono : forall c c', c + 1 <= c' ->
            (length (keys_before spooky_short m keys (c + 1))
             <= length (keys_before spooky_short m keys c'))%nat).
  { intros c c' Hcc. unfold keys_before. apply filter_length_mono.
    intros x Hx. apply Z.ltb_lt in Hx. apply Z.ltb_lt. lia. }
  destruct (Z.lt_trichotomy (chunk_index spooky_short m k) (chunk_index spooky_short m k'))
    as [Hlt|[Hc|Hgt]].
  - pose proof (Hmono (chunk_index spooky_short m k) (chunk_index spooky_short m k')
                  ltac:(lia)). lia.
  - apply (chosen_distinct _ _ _ _ Inv k k' Hin Hin').
    destruct (per_chunk _ _ _ _ Inv k Hin) as [_ _ _ _ Hlab].
    destruct (per_chunk _ _ _ _ Inv k' Hin') as [_ _ _ _ Hlab'].
    pose proof (chosen_in_chunk k Hin) as Hch.
    pose proof (chosen_in_chunk k' Hin') as Hch'.
    unfold ordinal in Heq. rewrite <- Hc in Heq, Hch'.
    set (v := chosen_vertex spooky_short spooky_short_rehash m k) in *.
    set (v' := chosen_vertex spooky_short spooky_short_rehash m k') in *.
    set (a := chunk_first m (chunk_index spooky_short m k)) in *.
    destruct (Z.lt_trichotomy v v') as [Hv|[Hv|Hv]]; [|exact Hv|].
    + pose proof (rank_before_labelled (array m) a v v' ltac:(lia) Hlab). lia.
    + pose proof (rank_before_labelled (array m) a v' v ltac:(lia) Hlab'). lia.
  - pose proof (Hmono (chunk_index spooky_short m k') (chunk_index spooky_short m k)
                  ltac:(lia)). lia.
Qed.

Lemma get_uint64_t_ordinal (u : Z) :
  In (le_split 8 u) keys ->
  get_uint64_t spooky_short spooky_short_rehash m u
  = Some (ordinal spooky_short spooky_short_rehash m (le_split 8 u)).
Proof.
  intros Hin. rewrite <- (get_byte_array_ordinal _ Hin).
  rewrite get_uint64_t_lookup, get_byte_array_lookup by lia.
  rewrite Nat2Z.id, firstn_all. reflexivity.
Qed.

(** C1, amended: on an index that satisfies the invariants of the
    construction for the key set [keys], with a [chunk_shift] below [64] and,
    for every key, a chunk index below [2^31 - 1] (so that [chunk] and
    [chunk + 1] fit an [int]), fewer than [2^31] vertices in the chunk and
    the chunk's vertices ending at or below [2^36] (so that their block
    indices fit an [int]), [get_byte_array] returns for every key of the set a value in
    [[0, key_count)], and so does [get_uint64_t] for every key of the set that
    is the encoding of a 64-bit integer; the values of all the keys are a
    permutation of [0, ..., n - 1]. *)
Theorem evaluate_is_minimal_perfect :
  (forall k, In k keys ->
     exists r, get_byte_array spooky_short spooky_short_rehash m k (Z.of_nat (length k))
               = Some r /\ 0 <= r < size m) /\
  (forall u, In (le_split 8 u) keys ->
     exists r, get_uint64_t spooky_short spooky_short_rehash m u = Some r /\
               get_byte_array spooky_short spooky_short_rehash m (le_split 8 u) 8 = Some r /\
               0 <= r < size m) /\
  exists ordinals,
    map (fun k => get_byte_array spooky_short spooky_short_rehash m k (Z.of_nat (length k)))
        keys = map Some ordinals /\
    Permutation ordinals (map Z.of_nat (seq 0 (length keys))).
Proof.
  split; [|split].
  - intros k Hin. exists (ordinal spooky_short spooky_short_rehash m k).
    split; [apply get_byte_array_ordinal; exact Hin | apply ordinal_range; exact Hin].
  - intros u Hin. exists (ordinal spooky_short spooky_short_rehash m (le_split 8 u)).
    split; [apply get_uint64_t_ordinal; exact Hin|].
    split; [|apply ordinal_range; exact Hin].
    pose proof (get_byte_array_ordinal _ Hin) as Hb.
    rewrite length_le_split in Hb. exact Hb.
  - exists (map (ordinal spooky_short spooky_short_rehash m) keys). split.
    + rewrite map_map. apply map_ext_in. intros k Hin.
      apply get_byte_array_ordinal. exact Hin.
    + apply NoDup_Permutation_bis.
      * apply NoDup_map_NoDup_ForallPairs; [|exact (keys_distinct _ _ _ _ Inv)].
        intros k k' Hin Hin'. apply ordinal_injective; assumption.
      * rewrite !length_map, length_seq. lia.
      * intros r Hr. apply in_map_iff in Hr. destruct Hr as (k & <- & Hin).
        pose proof (ordinal_range k Hin) as Hrange.
        rewrite (key_count _ _ _ _ Inv) in Hrange.
        apply in_map_iff. exists (Z.to_nat (ordinal spooky_short spooky_short_rehash m k)).
        split; [lia|]. apply in_seq. lia.
Qed.

End Construction.

(** *** The small index satisfies the invariants *)

Lemma small_index_invariants :
  construction_invariants toy_hash toy_rehash small_index small_keys.
Proof.
  constructor.
  - unfold small_keys. cbn [map].
    repeat constructor; cbn [In];
      repeat (intros [H|H]; [vm_compute in H; discriminate|revert H]); intros [].
  - reflexivity.
  - exact small_index_labels_u64.
  - intros k Hin. unfold small_keys in Hin. cbn [In map] in Hin.
    destruct Hin as [<-|[<-|[<-|[<-|[]]]]]; constructor; closed_fact.
  - intros k k' Hin Hin'. unfold small_keys in Hin, Hin'. cbn [In map] in Hin, Hin'.
    destruct Hin as [<-|[<-|[<-|[<-|[]]]]];
      destruct Hin' as [<-|[<-|[<-|[<-|[]]]]];
      intros H; first [reflexivity | vm_compute in H; discriminate].
Qed.

Lemma small_index_magnitudes : int_magnitudes toy_hash small_index small_keys.
Proof.
  constructor.
  - closed_fact.
  - intros k Hin. unfold small_keys in Hin. cbn [In map] in Hin.
    destruct Hin as [<-|[<-|[<-|[<-|[]]]]]; closed_fact.
  - intros k Hin. unfold small_keys in Hin. cbn [In map] in Hin.
    destruct Hin as [<-|[<-|[<-|[<-|[]]]]]; closed_fact.
  - intros k Hin. unfold small_keys in Hin. cbn [In map] in Hin.
    destruct Hin as [<-|[<-|[<-|[<-|[]]]]]; closed_fact.
Qed.

Lemma evaluate_is_minimal_perfect_witness :
  construction_invariants toy_hash toy_rehash small_index small_keys /\
  int_magnitudes toy_hash small_index small_keys /\
  (forall k, In k small_keys ->
     exists r, get_byte_array toy_hash toy_rehash small_index k (Z.of_nat (length k))
               = Some r /\ 0 <= r < size small_index) /\
  (forall u, In (le_split 8 u) small_keys ->
     exists r, get_uint64_t toy_hash toy_rehash small_index u = Some r /\
               get_byte_array toy_hash toy_rehash small_index (le_split 8 u) 8 = Some r /\
               0 <= r < size small_index) /\
  exists ordinals,
    map (fun k => get_byte_array toy_hash toy_rehash small_index k (Z.of_nat (length k)))
        small_keys = map Some ordinals /\
    Permutation ordinals (map Z.of_nat (seq 0 (length small_keys))).
Proof.
  split; [exact small_index_invariants|].
  split; [exact small_index_magnitudes|].
  exact (evaluate_is_minimal_perfect toy_hash toy_rehash small_index small_keys
           small_index_invariants small_index_magnitudes).
Defined.

(** *** Indexes the code cannot evaluate *)

Lemma one_chunk_index_invariants :
  construction_invariants one_chunk_hash toy_rehash one_chunk_index one_chunk_keys.
Proof.
  constructor.
  - unfold one_chunk_keys. cbn [map].
    repeat constructor; cbn [In];
      repeat (intros [H|H]; [vm_compute in H; discriminate|revert H]); intros [].
  - reflexivity.
  - repeat constructor; unfold is_u64, two64; lia.
  - intros k Hin. unfold one_chunk_keys in Hin. cbn [In map] in Hin.
    destruct Hin as [<-|[<-|[<-|[]]]]; constructor; closed_fact.
  - intros k k' Hin Hin'. unfold one_chunk_keys in Hin, Hin'. cbn [In map] in Hin, Hin'.
    destruct Hin as [<-|[<-|[<-|[]]]];
      destruct Hin' as [<-|[<-|[<-|[]]]];
      intros H; first [reflexivity | vm_compute in H; discriminate].
Qed.

Lemma far_chunk_entries (t : list Z) :
  Z.of_nat (length t) = 2 ^ 31 ->
  entry (far_chunk_index_on t) (2 ^ 31) = 0 /\
  entry (far_chunk_index_on t) (2 ^ 31 + 1) = 1 /\
  Z.of_nat (length (edge_offset_and_seed (far_chunk_index_on t))) = 2 ^ 31 + 2.
Proof.
  intros Ht. unfold entry, far_chunk_index_on. cbn [edge_offset_and_seed].
  assert (H0 : Z.to_nat (2 ^ 31) = length t) by lia.
  assert (H1 : Z.to_nat (2 ^ 31 + 1) = S (length t)) by lia.
  rewrite H0, H1. split; [|split].
  - rewrite app_nth2 by lia. rewrite Nat.sub_diag. reflexivity.
  - rewrite app_nth2 by lia.
    replace (S (length t) - length t)%nat with 1%nat by lia. reflexivity.
  - rewrite length_app. cbn [length]. lia.
Qed.

Lemma far_chunk_index_invariants (t : list Z) :
  Z.of_nat (length t) = 2 ^ 31 ->
  construction_invariants toy_hash toy_rehash (far_chunk_index_on t) far_chunk_keys.
Proof.
  intros Ht. destruct (far_chunk_entries t Ht) as (E0 & E1 & El).
  assert (Hc : chunk_index toy_hash (far_chunk_index_on t) (le_split 8 3) = 2 ^ 31)
    by (vm_compute; reflexivity).
  constructor.
  - unfold far_chunk_keys. repeat constructor. intros [].
  - reflexivity.
  - repeat constructor; unfold is_u64, two64; lia.
  - intros k Hin. unfold far_chunk_keys in Hin. cbn [In] in Hin.
    destruct Hin as [<-|[]].
    constructor; unfold chosen_vertex, edge, chunk_vertices, chunk_first,
                   keys_before, keys_in_chunk, far_chunk_keys;
      cbn [filter]; rewrite ?Hc, ?E0, ?E1, ?El; closed_fact.
  - intros k k' Hin Hin'. unfold far_chunk_keys in Hin, Hin'. cbn [In] in Hin, Hin'.
    destruct Hin as [<-|[]]. destruct Hin' as [<-|[]]. reflexivity.
Qed.

Lemma far_chunk_lookup (t : list Z) :
  get_byte_array toy_hash toy_rehash (far_chunk_index_on t) (le_split 8 3) 8 = None.
Proof.
  rewrite get_byte_array_lookup by (rewrite length_le_split; lia).
  unfold lookup.
  assert (Hc : chunk_of (far_chunk_index_on t)
                 (toy_hash (firstn (Z.to_nat 8) (le_split 8 3))
                    (global_seed (far_chunk_index_on t)))
               = Some (- 2 ^ 31)) by (vm_compute; reflexivity).
  rewrite Hc. cbn [bind]. rewrite idx_neg by lia. reflexivity.
Qed.

(** C1, as stated, fails on indexes that satisfy the invariants of the
    construction: on an index of a single chunk, whose [chunk_shift] is [64],
    the shift [h[0] >> 64] is undefined for every key; on an index of
    [2^31 + 1] chunks the chunk index [2^31] of the key is stored as the [int]
    [-2^31] and the directory is read outside of its bounds. *)
Lemma evaluation_undefined_on_built_indexes :
  (construction_invariants one_chunk_hash toy_rehash one_chunk_index one_chunk_keys /\
   chunk_shift one_chunk_index = 64 /\
   map (fun k => get_byte_array one_chunk_hash toy_rehash one_chunk_index k 8)
       one_chunk_keys = [None; None; None]) /\
  (construction_invariants toy_hash toy_rehash far_chunk_index far_chunk_keys /\
   chunk_index toy_hash far_chunk_index (le_split 8 3) = 2 ^ 31 /\
   get_byte_array toy_hash toy_rehash far_chunk_index (le_split 8 3) 8 = None).
Proof.
  split.
  - split; [exact one_chunk_index_invariants|].
    split; vm_compute; reflexivity.
  - unfold far_chunk_index.
    assert (Ht : Z.of_nat (length (repeat 0 (Z.to_nat (2 ^ 31)))) = 2 ^ 31)
      by (rewrite repeat_length; apply Z2Nat.id; lia).
    generalize dependent (repeat 0 (Z.to_nat (2 ^ 31))). intros t Ht.
    split; [exact (far_chunk_index_invariants t Ht)|].
    split; [vm_compute; reflexivity | apply far_chunk_lookup].
Qed.

(** ** The small index, evaluated *)

Example small_index_ordinals :
  map (fun k => get_byte_array toy_hash toy_rehash small_index k 8) small_keys
  = [Some 0; Some 1; Some 2; Some 3]
  /\ map (get_uint64_t toy_hash toy_rehash small_index) [0; 1; 2; 3]
     = [Some 0; Some 1; Some 2; Some 3].
Proof. split; vm_compute; reflexivity. Qed.

Example empty_chunk_answers_minus_one :
  get_uint64_t toy_hash toy_rehash empty_chunk_index 2 = Some (-1)
  /\ get_byte_array toy_hash toy_rehash empty_chunk_index [x00; x01] 2 = Some (-1).
Proof. split; vm_compute; reflexivity. Qed.

Example small_index_vertex_offsets :
  map vertex_offset (edge_offset_and_seed small_index) = [0; 3; 4]
  /\ map offset_field (edge_offset_and_seed small_index) = [0; 3; 4].
Proof. split; vm_compute; reflexivity. Qed.

Example sample_ranks :
  count_nonzero_pairs 0 96 sample_labels = Some 37
  /\ count_nonzero_pairs 5 6 sample_labels = Some 1
  /\ count_nonzero_pairs 6 10 sample_labels = Some 0
  /\ count_nonzero_pairs 31 65 sample_labels = Some 33.
Proof. repeat split; vm_compute; reflexivity. Qed.

(** * Further properties of the code *)

(** ** Counting: the extreme cases *)

Lemma count_from_zero_iff (P : Z -> bool) (n : nat) (a : Z) :
  count_from P a n = 0 <-> (forall i, a <= i < a + Z.of_nat n -> P i = false).
Proof.
  split; [|apply count_from_false].
  revert a; induction n as [|n IH]; intros a H i Hi; [lia|].
  cbn [count_from] in H.
  pose proof (count_from_bounds P n (a + 1)) as Hb.
  destruct (P a) eqn:Ha; cbn [Z.b2z] in H; [lia|].
  destruct (Z.eq_dec i a) as [->|Hne]; [exact Ha|].
  apply (IH (a + 1)); lia.
Qed.

Lemma count_from_full_iff (P : Z -> bool) (n : nat) (a : Z) :
  count_from P a n = Z.of_nat n <-> (forall i, a <= i < a + Z.of_nat n -> P i = true).
Proof.
  revert a; induction n as [|n IH]; intros a.
  - cbn [count_from]. split; [intros _ i Hi; lia | reflexivity].
  - cbn [count_from].
    pose proof (count_from_bounds P n (a + 1)) as Hb.
    split.
    + intros H i Hi.
      destruct (P a) eqn:Ha; cbn [Z.b2z] in H; [|lia].
      destruct (Z.eq_dec i a) as [->|Hne]; [exact Ha|].
      apply (proj1 (IH (a + 1))); lia.
    + intros H. rewrite (H a) by lia. cbn [Z.b2z].
      rewrite (proj2 (IH (a + 1))); [lia|]. intros i Hi. apply H. lia.
Qed.

Lemma range_count_zero_iff (P : Z -> bool) (a b : Z) :
  a <= b -> (range_count P a b = 0 <-> forall i, a <= i < b -> P i = false).
Proof.
  intros H. unfold range_count. rewrite count_from_zero_iff.
  split; intros Hall i Hi; apply Hall; lia.
Qed.

Lemma range_count_full_iff (P : Z -> bool) (a b : Z) :
  a <= b -> (range_count P a b = b - a <-> forall i, a <= i < b -> P i = true).
Proof.
  intros H. unfold range_count.
  replace (b - a) with (Z.of_nat (Z.to_nat (b - a))) at 2 by lia.
  rewrite count_from_full_iff.
  split; intros Hall i Hi; apply Hall; lia.
Qed.

(** ** X1: one word of labels *)

(** X1: on a 64-bit word [_count_nonzero_pairs] returns the number of its
    32 two-bit groups that are not [0b00]: a value between [0] and [32], [0]
    only for the word [0], and [32] only when every group is non-zero. *)
Theorem nonzero_pairs_of_word (x : Z) :
  is_u64 x ->
  0 <= _count_nonzero_pairs x <= 32 /\
  _count_nonzero_pairs x = range_count (pair_nonzero x) 0 32 /\
  (_count_nonzero_pairs x = 0 <-> x = 0) /\
  (_count_nonzero_pairs x = 32 <-> forall j, 0 <= j < 32 -> pair_nonzero x j = true).
Proof.
  intros Hx.
  split; [apply count_nonzero_pairs_word_bounds|].
  split; [apply count_nonzero_pairs_word|].
  rewrite count_nonzero_pairs_word. split.
  - rewrite range_count_zero_iff by lia. split.
    + intros Hall. apply Z.bits_inj'. intros n Hn. rewrite Z.bits_0.
      destruct (Z.lt_ge_cases n 64) as [Hlt|Hge];
        [|apply testbit_u64_high; assumption].
      pose proof (Z.div_mod n 2 ltac:(lia)) as Hdm.
      pose proof (Z.mod_pos_bound n 2 ltac:(lia)) as Hm.
      assert (Hj : 0 <= n / 2 < 32)
        by (split; [apply Z.div_pos; lia | apply Z.div_lt_upper_bound; lia]).
      specialize (Hall (n / 2) Hj). unfold pair_nonzero in Hall.
      apply orb_false_iff in Hall. destruct Hall as [He Ho].
      assert (Hcase : n mod 2 = 0 \/ n mod 2 = 1) by lia.
      destruct Hcase as [H0|H1].
      * replace n with (2 * (n / 2)) by lia. exact He.
      * replace n with (2 * (n / 2) + 1) by lia. exact Ho.
    + intros -> j Hj. unfold pair_nonzero. rewrite !Z.bits_0. reflexivity.
  - replace 32 with (32 - 0) at 1 by lia. apply range_count_full_iff. lia.
Qed.

Lemma nonzero_pairs_of_word_witness :
  is_u64 0x00000000C0300C03 /\ _count_nonzero_pairs 0x00000000C0300C03 <> 0.
Proof.
  assert (Hu : is_u64 0x00000000C0300C03) by (unfold is_u64, two64; lia).
  split; [exact Hu|].
  intros H0.
  apply (proj1 (proj1 (proj2 (proj2 (nonzero_pairs_of_word _ Hu))))) in H0.
  discriminate H0.
Defined.

(** ** X2 to X6: the rank operator *)

(** X2: in a label store of 64-bit words, for a vertex [pos] inside the
    store with [pos + 1 < 2^36] (so that the block indices of [pos] and
    [pos + 1] fit the [int] they are stored in), [get_2bit_value] returns its
    label, a value from [0] to [3], and the rank of the one-vertex range at
    that position is [0] when the label is [0] and [1] otherwise: the two
    readers of the label store agree on which vertices are labelled. *)
Theorem label_and_rank_agree (labels : list Z) (pos : Z) :
  words_u64 labels ->
  0 <= pos < 32 * Z.of_nat (length labels) ->
  pos + 1 < 2 ^ 36 ->
  exists v,
    get_2bit_value labels pos = Some v /\ 0 <= v <= 3 /\
    count_nonzero_pairs pos (pos + 1) labels = Some (if v =? 0 then 0 else 1).
Proof.
  intros Hw Hpos Hfit.
  exists (label_value labels pos).
  split; [apply get_2bit_value_label; lia|].
  split; [apply label_value_range|].
  rewrite count_nonzero_pairs_correct by (try assumption; lia).
  f_equal. unfold nonzero_labels.
  rewrite range_count_step by lia. rewrite range_count_empty.
  rewrite label_nonzero_value.
  destruct (label_value labels pos =? 0); reflexivity.
Qed.

Lemma label_and_rank_agree_witness :
  exists v,
    get_2bit_value sample_labels 5 = Some v /\ 0 <= v <= 3 /\
    count_nonzero_pairs 5 (5 + 1) sample_labels = Some (if v =? 0 then 0 else 1).
Proof.
  apply (label_and_rank_agree sample_labels 5).
  - exact sample_labels_u64.
  - cbn [length sample_labels]. lia.
  - lia.
Defined.

(** X3: in a label store of 64-bit words, for a range [start <= end] with
    [start] inside the store, [end] at most its number of vertices and
    [end < 2^36] (the block indices fit their [int]), the rank lies between
    [0] and the length of the range; it is [0] exactly when no vertex of the
    range is labelled and the length exactly when every vertex is. *)
Theorem rank_bounds_and_extremes (labels : list Z) (start end_ : Z) :
  words_u64 labels ->
  0 <= start <= end_ ->
  end_ <= 32 * Z.of_nat (length labels) ->
  start < 32 * Z.of_nat (length labels) ->
  end_ < 2 ^ 36 ->
  exists r,
    count_nonzero_pairs start end_ labels = Some r /\
    0 <= r <= end_ - start /\
    (r = 0 <-> forall i, start <= i < end_ -> get_2bit_value labels i = Some 0) /\
    (r = end_ - start <->
     forall i, start <= i < end_ -> exists v, get_2bit_value labels i = Some v /\ v <> 0).
Proof.
  intros Hw Hse Hend Hstart Hfit.
  exists (nonzero_labels start end_ labels).
  split; [apply count_nonzero_pairs_correct; assumption|].
  unfold nonzero_labels.
  split; [apply range_count_bounds; lia|].
  assert (Hget : forall i, start <= i < end_ ->
            get_2bit_value labels i = Some (label_value labels i))
    by (intros i Hi; apply get_2bit_value_label; lia).
  split.
  - rewrite range_count_zero_iff by lia. split.
    + intros Hall i Hi. rewrite (Hget i Hi). f_equal.
      specialize (Hall i Hi). rewrite label_nonzero_value in Hall.
      apply negb_false_iff in Hall. apply Z.eqb_eq in Hall. exact Hall.
    + intros Hall i Hi. specialize (Hall i Hi). rewrite (Hget i Hi) in Hall.
      inversion Hall as [Hv]. rewrite label_nonzero_value, Hv. reflexivity.
  - rewrite range_count_full_iff by lia. split.
    + intros Hall i Hi. exists (label_value labels i). split; [apply Hget; exact Hi|].
      specialize (Hall i Hi). rewrite label_nonzero_value in Hall.
      apply negb_true_iff in Hall. apply Z.eqb_neq in Hall. exact Hall.
    + intros Hall i Hi. destruct (Hall i Hi) as (v & Hv & Hne).
      rewrite (Hget i Hi) in Hv. inversion Hv as [Hv'].
      rewrite label_nonzero_value. apply negb_true_iff. apply Z.eqb_neq. lia.
Qed.

Lemma rank_bounds_and_extremes_witness :
  exists r,
    count_nonzero_pairs 32 64 sample_labels = Some r /\
    0 <= r <= 64 - 32 /\
    (r = 0 <-> forall i, 32 <= i < 64 -> get_2bit_value sample_labels i = Some 0) /\
    (r = 64 - 32 <->
     forall i, 32 <= i < 64 ->
       exists v, get_2bit_value sample_labels i = Some v /\ v <> 0).
Proof.
  apply (rank_bounds_and_extremes sample_labels 32 64).
  - exact sample_labels_u64.
  - lia.
  - cbn [length sample_labels]. lia.
  - cbn [length sample_labels]. lia.
  - lia.
Defined.

(** X4: for a range [start <= end] with [end < 2^36] that lies inside two
    label stores of 64-bit words ([start] inside both, [end] at most the
    number of vertices of either), the rank depends only on the words that
    hold vertices of the range: if the stores agree on the words from
    [start / 32] up to the word of vertex [end - 1], the ranks are equal. *)
Theorem rank_reads_only_its_words (labels labels' : list Z) (start end_ : Z) :
  words_u64 labels -> words_u64 labels' ->
  0 <= start <= end_ ->
  end_ <= 32 * Z.of_nat (length labels) -> start < 32 * Z.of_nat (length labels) ->
  end_ <= 32 * Z.of_nat (length labels') -> start < 32 * Z.of_nat (length labels') ->
  end_ < 2 ^ 36 ->
  (forall b, start / 32 <= b -> 32 * b < end_ ->
     nth (Z.to_nat b) labels 0 = nth (Z.to_nat b) labels' 0) ->
  count_nonzero_pairs start end_ labels = count_nonzero_pairs start end_ labels'.
Proof.
  intros Hw Hw' Hse He Hs He' Hs' Hfit Hagree.
  rewrite !count_nonzero_pairs_correct by assumption.
  f_equal. unfold nonzero_labels. apply range_count_ext.
  intros i Hi. unfold label_nonzero.
  rewrite (Hagree (i / 32)); [reflexivity | apply Z.div_le_mono; lia |].
  pose proof (Z.mul_div_le i 32 ltac:(lia)). lia.
Qed.

Lemma rank_reads_only_its_words_witness :
  count_nonzero_pairs 40 60 sample_labels
  = count_nonzero_pairs 40 60 [0; 0xFFFFFFFFFFFFFFFF].
Proof.
  apply (rank_reads_only_its_words sample_labels [0; 0xFFFFFFFFFFFFFFFF] 40 60).
  - exact sample_labels_u64.
  - repeat constructor; unfold is_u64, two64; lia.
  - lia.
  - cbn [length sample_labels]. lia.
  - cbn [length sample_labels]. lia.
  - cbn [length]. lia.
  - cbn [length]. lia.
  - lia.
  - intros b Hb1 Hb2. change (40 / 32) with 1 in Hb1.
    assert (Hb : b = 1) by lia. subst b. reflexivity.
Defined.

(** X5: in a label store of 64-bit words, for positions [a <= v < w] with
    [w] at most the number of vertices of the store and [w < 2^36]: when the
    vertex [v] is labelled, the rank from [a] up to [v] is smaller than the
    rank from [a] up to [w], so that two different labelled vertices in that
    range never have the same rank. *)
Theorem rank_separates_labelled (labels : list Z) (a v w l : Z) :
  words_u64 labels ->
  0 <= a <= v -> v < w ->
  w <= 32 * Z.of_nat (length labels) ->
  w < 2 ^ 36 ->
  get_2bit_value labels v = Some l -> l <> 0 ->
  exists r r',
    count_nonzero_pairs a v labels = Some r /\
    count_nonzero_pairs a w labels = Some r' /\
    r < r'.
Proof.
  intros Hw Hav Hvw Hlen Hfit Hl Hne.
  exists (nonzero_labels a v labels), (nonzero_labels a w labels).
  rewrite !count_nonzero_pairs_correct by (try assumption; lia).
  split; [reflexivity|]. split; [reflexivity|].
  apply rank_before_labelled; [lia|].
  rewrite get_2bit_value_label in Hl by lia. inversion Hl as [Hv].
  rewrite label_nonzero_value. apply negb_true_iff. apply Z.eqb_neq. lia.
Qed.

Lemma rank_separates_labelled_witness :
  exists r r',
    count_nonzero_pairs 0 5 sample_labels = Some r /\
    count_nonzero_pairs 0 10 sample_labels = Some r' /\
    r < r'.
Proof.
  apply (rank_separates_labelled sample_labels 0 5 10 3).
  - exact sample_labels_u64.
  - lia.
  - lia.
  - cbn [length sample_labels]. lia.
  - lia.
  - vm_compute. reflexivity.
  - discriminate.
Defined.

(** X6: within one word an empty or reversed range has rank [0]: when
    [start], inside the label store and below [2^36], and [end <= start] lie
    in the same word, the mask of [end] clears every bit the shift of [start]
    keeps. *)
Theorem rank_of_reversed_range_in_word (labels : list Z) (start end_ : Z) :
  0 <= end_ <= start ->
  start / 32 = end_ / 32 ->
  start < 32 * Z.of_nat (length labels) ->
  start < 2 ^ 36 ->
  count_nonzero_pairs start end_ labels = Some 0.
Proof.
  intros Hes Hblock Hlen Hfit.
  pose proof (Z.mod_pos_bound start 32 ltac:(lia)) as Ms.
  pose proof (Z.mod_pos_bound end_ 32 ltac:(lia)) as Me.
  pose proof (Z.div_mod start 32 ltac:(lia)) as Ds.
  pose proof (Z.div_mod end_ 32 ltac:(lia)) as De.
  assert (HB : 0 <= start / 32 < 2 ^ 31).
  { split; [apply Z.div_pos; lia | apply Z.div_lt_upper_bound; lia]. }
  assert (HBl : start / 32 < Z.of_nat (length labels))
    by (apply Z.div_lt_upper_bound; lia).
  unfold count_nonzero_pairs.
  rewrite <- Hblock.
  rewrite !to_int_id by (unfold is_int; lia).
  rewrite Z.eqb_refl.
  rewrite idx_in by lia. cbn [bind]. f_equal.
  rewrite mask_ones by lia.
  set (w := nth (Z.to_nat (start / 32)) labels 0).
  assert (Hz : shr64 (Z.land w (Z.ones (end_ mod 32 * 2))) (start mod 32 * 2) = 0).
  { unfold shr64. rewrite Z.land_ones by lia.
    rewrite Z.shiftr_div_pow2 by lia.
    apply Z.div_small.
    pose proof (Z.mod_pos_bound w (2 ^ (end_ mod 32 * 2))
                  ltac:(apply Z.pow_pos_nonneg; lia)) as Hm.
    assert (2 ^ (end_ mod 32 * 2) <= 2 ^ (start mod 32 * 2))
      by (apply Z.pow_le_mono_r; lia).
    lia. }
  rewrite Hz. vm_compute. reflexivity.
Qed.

Lemma rank_of_reversed_range_in_word_witness :
  count_nonzero_pairs 47 33 sample_labels = Some 0.
Proof.
  apply (rank_of_reversed_range_in_word sample_labels 47 33).
  - lia.
  - reflexivity.
  - cbn [length sample_labels]. lia.
  - lia.
Defined.

(** ** X7 and X8: directory entries *)

Lemma seed_mask_bits (n : Z) :
  0 <= n -> Z.testbit (not64 OFFSET_MASK) n = (56 <=? n) && (n <? 64).
Proof.
  intros Hn.
  replace (not64 OFFSET_MASK) with (Z.shiftl (Z.ones 8) 56) by (vm_compute; reflexivity).
  rewrite Z.shiftl_spec by lia.
  destruct (Z.leb_spec 56 n) as [H56|H56]; cbn [andb].
  - destruct (Z.ltb_spec n 64) as [H64|H64].
    + apply Z.ones_spec_low. lia.
    + apply Z.ones_spec_high. lia.
  - apply Z.testbit_neg_r. lia.
Qed.

(** X7: a directory entry splits into its two fields without overlap: the
    offset field [entry & OFFSET_MASK] is the entry modulo [2^56], the seed
    passed to [triple_to_equation], [entry & ~OFFSET_MASK], is the top byte
    in place, a multiple of [2^56], and the two add up to the entry;
    [vertex_offset] looks at the offset field only. *)
Theorem entry_fields (entry : Z) :
  is_u64 entry ->
  Z.land entry OFFSET_MASK = entry mod 2 ^ 56 /\
  Z.land entry (not64 OFFSET_MASK) = 2 ^ 56 * (entry / 2 ^ 56) /\
  Z.land entry OFFSET_MASK + Z.land entry (not64 OFFSET_MASK) = entry /\
  0 <= entry / 2 ^ 56 < 256 /\
  vertex_offset entry = vertex_offset (Z.land entry OFFSET_MASK) /\
  (forall seed, 0 <= seed < 256 ->
     vertex_offset (entry mod 2 ^ 56 + 2 ^ 56 * seed) = vertex_offset entry).
Proof.
  intros Hu. unfold is_u64, two64 in Hu.
  assert (Hlow : Z.land entry OFFSET_MASK = entry mod 2 ^ 56)
    by (rewrite land_OFFSET_MASK; reflexivity).
  assert (Hhigh : Z.land entry (not64 OFFSET_MASK) = 2 ^ 56 * (entry / 2 ^ 56)).
  { rewrite Z.mul_comm, <- Z.shiftl_mul_pow2, <- Z.shiftr_div_pow2 by lia.
    apply Z.bits_inj'. intros n Hn.
    rewrite Z.land_spec, seed_mask_bits by lia.
    destruct (Z.leb_spec 56 n) as [H56|H56]; cbn [andb].
    - rewrite Z.shiftl_spec, Z.shiftr_spec by lia.
      replace (n - 56 + 56) with n by lia.
      destruct (Z.ltb_spec n 64) as [H64|H64]; [apply andb_true_r|].
      rewrite andb_false_r. symmetry. apply testbit_u64_high; [|lia].
      unfold is_u64, two64. lia.
    - rewrite andb_false_r. rewrite Z.shiftl_spec by lia.
      symmetry. apply Z.testbit_neg_r. lia. }
  split; [exact Hlow|]. split; [exact Hhigh|].
  split; [rewrite Hlow, Hhigh; pose proof (Z.div_mod entry (2 ^ 56) ltac:(lia)); lia|].
  split; [split; [apply Z.div_pos; lia | apply Z.div_lt_upper_bound; lia]|].
  split.
  - rewrite !vertex_offset_arith. unfold offset_field.
    rewrite Hlow, Z.mod_mod by lia. reflexivity.
  - intros seed Hseed. rewrite !vertex_offset_arith. unfold offset_field.
    rewrite (Z.mul_comm (2 ^ 56) seed), Z.mod_add by lia.
    rewrite Z.mod_mod by lia. reflexivity.
Qed.

Lemma entry_fields_witness :
  is_u64 (3 + 9 * 2 ^ 56) /\
  Z.land (3 + 9 * 2 ^ 56) OFFSET_MASK + Z.land (3 + 9 * 2 ^ 56) (not64 OFFSET_MASK)
  = 3 + 9 * 2 ^ 56.
Proof.
  assert (Hu : is_u64 (3 + 9 * 2 ^ 56)) by (unfold is_u64, two64; lia).
  split; [exact Hu|].
  exact (proj1 (proj2 (proj2 (entry_fields _ Hu)))).
Defined.

(** X8: as long as the product by [281] does not pass [2^64],
    [vertex_offset] grows with the offset field and at least as fast: an
    offset of [f] keys decodes to at least [f] vertices, and a chunk of
    [g - f] keys gets between [g - f] and [(g - f) * 281 / 256 + 1]
    vertices. *)
Theorem vertex_offset_monotone (e1 e2 : Z) :
  offset_field e1 <= offset_field e2 ->
  offset_field e2 * 281 < 2 ^ 64 ->
  vertex_offset e1 <= vertex_offset e2 /\
  offset_field e1 <= vertex_offset e1 /\
  offset_field e2 - offset_field e1 <= vertex_offset e2 - vertex_offset e1 /\
  vertex_offset e2 - vertex_offset e1
  <= (offset_field e2 - offset_field e1) * 281 / 256 + 1.
Proof.
  intros Hle Hfit.
  pose proof (offset_field_range e1) as R1.
  pose proof (offset_field_range e2) as R2.
  rewrite !vertex_offset_small by lia.
  set (f := offset_field e1) in *. set (g := offset_field e2) in *.
  assert (Hsplit : forall x, x * 281 / 256 = x + x * 25 / 256).
  { intros x. replace (x * 281) with (x * 25 + x * 256) by lia.
    rewrite Z.div_add by lia. lia. }
  assert (Hmono : f * 25 / 256 <= g * 25 / 256) by (apply Z.div_le_mono; lia).
  assert (Hpos : 0 <= f * 25 / 256) by (apply Z.div_pos; lia).
  rewrite (Hsplit f), (Hsplit g).
  split; [lia|]. split; [lia|]. split; [lia|].
  rewrite (Hsplit (g - f)).
  pose proof (Z.div_mod (f * 25) 256 ltac:(lia)) as Df.
  pose proof (Z.mod_pos_bound (f * 25) 256 ltac:(lia)) as Mf.
  pose proof (Z.div_mod (g * 25) 256 ltac:(lia)) as Dg.
  pose proof (Z.mod_pos_bound (g * 25) 256 ltac:(lia)) as Mg.
  pose proof (Z.div_mod ((g - f) * 25) 256 ltac:(lia)) as Dd.
  pose proof (Z.mod_pos_bound ((g - f) * 25) 256 ltac:(lia)) as Md.
  lia.
Qed.

Lemma vertex_offset_monotone_witness :
  offset_field (3 + 9 * 2 ^ 56) <= offset_field 1000 /\
  vertex_offset (3 + 9 * 2 ^ 56) <= vertex_offset 1000.
Proof.
  assert (H1 : offset_field (3 + 9 * 2 ^ 56) <= offset_field 1000)
    by (vm_compute; discriminate).
  split; [exact H1|].
  apply (vertex_offset_monotone (3 + 9 * 2 ^ 56) 1000 H1).
  vm_compute. reflexivity.
Defined.

(** ** X9 and X10: the triple *)

(** The least word that the multiply-shift maps to the vertex [v]. *)
Lemma multiply_shift_preimage (nv v : Z) :
  1 <= nv < 2 ^ 31 -> 0 <= v < nv ->
  let shift := 64 - bit_length nv in
  let w := (v * 2 ^ shift + nv - 1) / nv in
  0 <= w < 2 ^ shift /\
  Z.shiftr (Z.land w (2 ^ shift - 1) * nv) shift = v.
Proof.
  intros Hnv Hv shift w.
  pose proof (bit_length_int nv Hnv) as Hbl.
  assert (Hs : 33 <= shift <= 63) by (unfold shift; lia).
  assert (HS : 2 ^ 33 <= 2 ^ shift) by (apply Z.pow_le_mono_r; lia).
  set (S := 2 ^ shift) in *.
  pose proof (Z.div_mod (v * S + nv - 1) nv ltac:(lia)) as Hd.
  pose proof (Z.mod_pos_bound (v * S + nv - 1) nv ltac:(lia)) as Hm.
  fold w in Hd.
  assert (Hlo : v * S <= nv * w) by lia.
  assert (Hhi : nv * w <= v * S + nv - 1) by lia.
  assert (Hw : 0 <= w < S) by nia.
  split; [exact Hw|].
  replace (S - 1) with (Z.ones shift) by (rewrite Z.ones_equiv; unfold S; lia).
  rewrite Z.land_ones by lia. fold S. rewrite Z.mod_small by exact Hw.
  rewrite Z.shiftr_div_pow2 by lia. fold S.
  symmetry. apply Z.div_unique with (r := w * nv - v * S); lia.
Qed.

(** X9: the range reduction is onto: for every [int num_variables >= 1]
    and every three vertices below it there are three 64-bit words such that
    [triple_to_equation] returns exactly these vertices whenever the rehash
    delivers these words. *)
Theorem triple_to_equation_onto (num_variables v0 v1 v2 : Z) :
  1 <= num_variables < 2 ^ 31 ->
  0 <= v0 < num_variables -> 0 <= v1 < num_variables -> 0 <= v2 < num_variables ->
  exists w0 w1 w2,
    is_u64 w0 /\ is_u64 w1 /\ is_u64 w2 /\
    forall (spooky_short_rehash : hash256 -> Z -> hash256) triple seed,
      word0 (spooky_short_rehash triple seed) = w0 ->
      word1 (spooky_short_rehash triple seed) = w1 ->
      word2 (spooky_short_rehash triple seed) = w2 ->
      triple_to_equation spooky_short_rehash triple seed num_variables
      = Some (v0, v1, v2).
Proof.
  intros Hnv H0 H1 H2.
  pose proof (bit_length_int num_variables Hnv) as Hbl.
  assert (HS : 2 ^ (64 - bit_length num_variables) <= 2 ^ 63)
    by (apply Z.pow_le_mono_r; lia).
  destruct (multiply_shift_preimage num_variables v0 Hnv H0) as [R0 E0].
  destruct (multiply_shift_preimage num_variables v1 Hnv H1) as [R1 E1].
  destruct (multiply_shift_preimage num_variables v2 Hnv H2) as [R2 E2].
  eexists _, _, _.
  split; [unfold is_u64, two64; split; [apply R0 | lia]|].
  split; [unfold is_u64, two64; split; [apply R1 | lia]|].
  split; [unfold is_u64, two64; split; [apply R2 | lia]|].
  intros srh triple seed W0 W1 W2.
  rewrite triple_to_equation_value by exact Hnv. cbv zeta.
  rewrite W0, W1, W2, E0, E1, E2. reflexivity.
Qed.

Lemma triple_to_equation_onto_witness :
  exists w0 w1 w2,
    is_u64 w0 /\ is_u64 w1 /\ is_u64 w2 /\
    triple_to_equation (fun _ _ => (w0, w1, w2, 0)) (0, 0, 0, 0) 0 5 = Some (4, 0, 2).
Proof.
  destruct (triple_to_equation_onto 5 4 0 2 ltac:(lia) ltac:(lia) ltac:(lia) ltac:(lia))
    as (w0 & w1 & w2 & U0 & U1 & U2 & Hall).
  exists w0, w1, w2.
  split; [exact U0|]. split; [exact U1|]. split; [exact U2|].
  apply Hall; reflexivity.
Defined.

Lemma triple_to_equation_negative (spooky_short_rehash : hash256 -> Z -> hash256)
    (triple : hash256) (seed num_variables : Z) :
  - 2 ^ 31 <= num_variables < 0 ->
  clzll (of_int num_variables) = Some 0 /\
  triple_to_equation spooky_short_rehash triple seed num_variables = Some (0, 0, 0).
Proof.
  intros Hnv.
  assert (Hof : of_int num_variables = two64 + num_variables).
  { unfold of_int, u64, two64.
    symmetry. apply Z.mod_unique with (q := -1); lia. }
  assert (Hc : clzll (of_int num_variables) = Some 0).
  { rewrite Hof. rewrite clzll_bit_length by (unfold two64; lia).
    f_equal. unfold bit_length, two64.
    destruct (Z.eqb_spec (2 ^ 64 + num_variables) 0); [lia|].
    rewrite (Z.log2_unique (2 ^ 64 + num_variables) 63); lia. }
  split; [exact Hc|].
  unfold triple_to_equation. rewrite Hc. cbn [bind].
  change (to_int 0) with 0.
  change (sub64 (shl64 1 0) 1) with 0.
  rewrite !Z.land_0_r.
  unfold mul64. rewrite !Z.mul_0_l. reflexivity.
Qed.

(** X10: a negative [num_variables], which a directory with decreasing
    vertex offsets produces, has no leading zero as a 64-bit value: the shift
    and the mask are [0] and the three vertices are [0], whatever the hash. *)
Theorem triple_of_negative_count (spooky_short_rehash : hash256 -> Z -> hash256)
    (triple : hash256) (seed num_variables : Z) :
  - 2 ^ 31 <= num_variables < 0 ->
  clzll (of_int num_variables) = Some 0 /\
  triple_to_equation spooky_short_rehash triple seed num_variables = Some (0, 0, 0).
Proof.
  intros Hnv.
  exact (triple_to_equation_negative spooky_short_rehash triple seed num_variables Hnv).
Qed.

Lemma triple_of_negative_count_witness :
  triple_to_equation toy_rehash (7, 2 ^ 64 - 1, 12345678901234567890, 2 ^ 63) 0 (-3)
  = Some (0, 0, 0).
Proof.
  apply (triple_of_negative_count toy_rehash
           (7, 2 ^ 64 - 1, 12345678901234567890, 2 ^ 63) 0 (-3)).
  lia.
Defined.

(** ** X11 and X12: what a lookup can answer *)

Lemma to_int_of_negative_difference (a b : Z) :
  0 <= a < two64 -> 0 <= b < two64 -> - 2 ^ 31 <= a - b < 0 ->
  to_int (sub64 a b) = a - b.
Proof.
  intros Ha Hb Hd. unfold sub64, u64, two64 in *.
  replace ((a - b) mod 2 ^ 64) with (2 ^ 64 + (a - b))
    by (apply Z.mod_unique with (q := -1); lia).
  unfold to_int.
  replace (2 ^ 64 + (a - b) + 2 ^ 31) with ((a - b + 2 ^ 31) + 2 ^ 32 * 2 ^ 32) by lia.
  rewrite Z.mod_add by lia.
  rewrite Z.mod_small by lia. lia.
Qed.

Section Answers.

Variable spooky_short : list byte -> Z -> hash256.
Variable spooky_short_rehash : hash256 -> Z -> hash256.

(** X11: for a key, member of the key set or not, whose chunk index [c]
    is from [0] to [2^31 - 2] with both directory entries [c] and [c + 1]
    present, and whose chunk has from [1] to [2^31 - 1] vertices, all of them
    inside a store of 64-bit label words and ending at or below [2^36]: both
    entry points answer with an ordinal of that chunk, at least the chunk's
    offset field, less than the offset plus [num_variables], and at most the
    offset plus the number of labelled vertices of the chunk. *)
Theorem answer_stays_in_chunk (m : mph) (h : hash256) (result : option Z) (c : Z) :
  evaluates spooky_short spooky_short_rehash m h result ->
  chunk_of m h = Some c ->
  0 <= c < 2 ^ 31 - 1 ->
  c + 2 <= Z.of_nat (length (edge_offset_and_seed m)) ->
  let eos := nth (Z.to_nat c) (edge_offset_and_seed m) 0 in
  let next := nth (Z.to_nat (c + 1)) (edge_offset_and_seed m) 0 in
  1 <= vertex_offset next - vertex_offset eos < 2 ^ 31 ->
  words_u64 (array m) ->
  vertex_offset next <= 32 * Z.of_nat (length (array m)) ->
  vertex_offset next <= 2 ^ 36 ->
  exists r,
    result = Some r /\
    offset_field eos <= r /\
    r < offset_field eos + (vertex_offset next - vertex_offset eos) /\
    r <= offset_field eos
         + nonzero_labels (vertex_offset eos) (vertex_offset next) (array m).
Proof.
  intros Hev Hc Hcr Hdir eos next Hnv Hw Hcover Hfit.
  apply evaluates_lookup in Hev. subst result.
  pose proof (lookup_value spooky_short_rehash m h c Hc Hcr Hdir) as Hv.
  cbv zeta in Hv. fold eos next in Hv. specialize (Hv Hnv Hw Hcover Hfit).
  pose proof (derive_triple_range spooky_short_rehash h
                (Z.land eos (not64 OFFSET_MASK))
                (vertex_offset next - vertex_offset eos) Hnv) as Hr.
  destruct (derive_triple _ _ _ _) as [[e0 e1] e2].
  destruct Hr as (R0 & R1 & R2).
  set (s := (label_value (array m) (vertex_offset eos + e0)
             + label_value (array m) (vertex_offset eos + e1)
             + label_value (array m) (vertex_offset eos + e2)) mod 3) in *.
  set (ei := if s =? 0 then e0 else if s =? 1 then e1 else e2) in *.
  assert (Hei : 0 <= ei < vertex_offset next - vertex_offset eos).
  { unfold ei. destruct (s =? 0); [assumption|]. destruct (s =? 1); assumption. }
  eexists. split; [exact Hv|].
  pose proof (vertex_offset_range eos) as Vf.
  pose proof (range_count_bounds (label_nonzero (array m)) (vertex_offset eos)
                (vertex_offset eos + ei) ltac:(lia)) as Rb.
  pose proof (rank_monotone (array m) (vertex_offset eos) (vertex_offset eos + ei)
                (vertex_offset next) ltac:(lia)) as Rm.
  unfold nonzero_labels in *. lia.
Qed.

(** X12: for a key whose chunk index [c] is from [0] to [2^31 - 2] with
    both directory entries [c] and [c + 1] present, in a store of 64-bit label
    words that holds the chunk's first vertex at a position below [2^36]:
    when [num_variables], the difference of the two vertex offsets stored in
    its [int], is negative (as it is when the next vertex offset is smaller by
    at most [2^31]), the triple is [(0, 0, 0)], the rank is the one of an
    empty range, and both entry points answer with the offset field of the
    chunk's entry, never with [-1]. *)
Theorem answer_on_decreasing_directory (m : mph) (h : hash256) (result : option Z)
    (c : Z) :
  evaluates spooky_short spooky_short_rehash m h result ->
  chunk_of m h = Some c ->
  0 <= c < 2 ^ 31 - 1 ->
  c + 2 <= Z.of_nat (length (edge_offset_and_seed m)) ->
  let eos := nth (Z.to_nat c) (edge_offset_and_seed m) 0 in
  let next := nth (Z.to_nat (c + 1)) (edge_offset_and_seed m) 0 in
  let num_variables := to_int (sub64 (vertex_offset next) (vertex_offset eos)) in
  (- 2 ^ 31 <= vertex_offset next - vertex_offset eos < 0 ->
   num_variables = vertex_offset next - vertex_offset eos) /\
  (num_variables < 0 ->
   words_u64 (array m) ->
   vertex_offset eos < 32 * Z.of_nat (length (array m)) ->
   vertex_offset eos < 2 ^ 36 ->
   result = Some (offset_field eos)).
Proof.
  intros Hev Hc Hcr Hdir eos next num_variables.
  pose proof (vertex_offset_range eos) as Vf.
  pose proof (vertex_offset_range next) as Vn.
  split.
  { intros Hd. unfold num_variables.
    apply to_int_of_negative_difference; unfold two64; lia. }
  intros Hnv Hw Hcover Hfit.
  apply evaluates_lookup in Hev. subst result.
  unfold lookup. rewrite Hc. cbn [bind].
  rewrite idx_in by lia. cbn [bind]. fold eos.
  rewrite int_add_fits by lia. cbn [bind].
  rewrite idx_in by lia. cbn [bind]. fold next. fold num_variables.
  pose proof (to_int_range (sub64 (vertex_offset next) (vertex_offset eos))) as Hir.
  fold num_variables in Hir. unfold is_int in Hir.
  destruct (Z.eqb_spec num_variables 0); [lia|].
  destruct (triple_to_equation_negative spooky_short_rehash h
              (Z.land eos (not64 OFFSET_MASK)) num_variables ltac:(lia)) as [_ Ht].
  rewrite Ht. cbn [bind].
  assert (Hadd : add64 (of_int 0) (vertex_offset eos) = vertex_offset eos).
  { unfold add64, of_int. rewrite (u64_id 0) by (unfold is_u64, two64; lia).
    apply u64_id. unfold is_u64, two64. lia. }
  rewrite Hadd.
  rewrite get_2bit_value_label by lia. cbn [bind].
  pose proof (label_value_range (array m) (vertex_offset eos)) as Lr.
  set (l := label_value (array m) (vertex_offset eos)) in *.
  replace (Z.rem (l + l + l) 3) with 0.
  2:{ rewrite Z.rem_mod_nonneg by lia. replace (l + l + l) with (l * 3) by lia.
      rewrite Z.mod_mul by lia. reflexivity. }
  cbn [sel3 Z.eqb bind].
  assert (Hadd' : add64 (vertex_offset eos) (of_int 0) = vertex_offset eos).
  { unfold add64, of_int. rewrite (u64_id 0) by (unfold is_u64, two64; lia).
    rewrite Z.add_0_r. apply u64_id. unfold is_u64, two64. lia. }
  rewrite Hadd'.
  rewrite count_nonzero_pairs_correct by (try assumption; lia).
  cbn [bind]. unfold nonzero_labels. rewrite range_count_empty.
  rewrite land_OFFSET_MASK.
  pose proof (offset_field_range eos) as Fo.
  unfold add64. rewrite Z.add_0_r, u64_id by (unfold is_u64, two64; lia).
  rewrite to_int64_id by lia. reflexivity.
Qed.

End Answers.

Lemma answer_stays_in_chunk_witness :
  exists r,
    get_uint64_t toy_hash toy_rehash small_index 7 = Some r /\
    offset_field (3 + 9 * 2 ^ 56) <= r /\
    r < offset_field (3 + 9 * 2 ^ 56) + (vertex_offset 4 - vertex_offset (3 + 9 * 2 ^ 56)) /\
    r <= offset_field (3 + 9 * 2 ^ 56)
         + nonzero_labels (vertex_offset (3 + 9 * 2 ^ 56)) (vertex_offset 4)
             (array small_index).
Proof.
  apply (answer_stays_in_chunk toy_hash toy_rehash small_index _ _ 1
           (evaluates_uint64 toy_hash toy_rehash small_index 7) eq_refl).
  - lia.
  - cbn [length edge_offset_and_seed small_index]. lia.
  - vm_compute. split; [discriminate | reflexivity].
  - exact small_index_labels_u64.
  - vm_compute. discriminate.
  - vm_compute. discriminate.
Defined.

Lemma answer_on_decreasing_directory_witness :
  to_int (sub64 (vertex_offset 2) (vertex_offset 5)) < 0 /\
  get_uint64_t toy_hash toy_rehash decreasing_index 1 = Some (offset_field 5).
Proof.
  assert (Hneg : to_int (sub64 (vertex_offset 2) (vertex_offset 5)) < 0)
    by (vm_compute; reflexivity).
  split; [exact Hneg|].
  apply (proj2 (answer_on_decreasing_directory toy_hash toy_rehash decreasing_index _ _ 0
                  (evaluates_uint64 toy_hash toy_rehash decreasing_index 1) eq_refl
                  ltac:(lia)
                  ltac:(cbn [length edge_offset_and_seed decreasing_index]; lia))).
  - exact Hneg.
  - repeat constructor; unfold is_u64, two64; lia.
  - vm_compute. reflexivity.
  - vm_compute. reflexivity.
Defined.

(** ** X14: loading a stream that ends within the leading fields *)

Section Loaded.

Variable heap_has : Z -> Z -> bool.
Variable t_uninit : Z.
Variable granted : nat -> Z -> Z.

(** X14: when the stream holds at most 24 bytes and each of the first
    three calls of [read] is handed the 8 bytes it asks for (as far as the
    stream goes), nothing is left for the fourth: [load_mph] returns an index
    whose two lengths are [0] and whose directory and label store are empty,
    whatever the later calls are handed.  No key can be evaluated on it: both
    entry points read outside the directory, whatever the hash. *)
Theorem short_stream_index_is_empty (s : list byte) (m : mph) :
  (length s <= 24)%nat ->
  8 <= granted 0%nat 8 -> 8 <= granted 1%nat 8 -> 8 <= granted 2%nat 8 ->
  load_mph heap_has t_uninit granted s = Some m ->
  edge_offset_and_seed_length m = 0 /\ edge_offset_and_seed m = [] /\
  array_length m = 0 /\ array m = [] /\
  forall (spooky_short : list byte -> Z -> hash256)
         (spooky_short_rehash : hash256 -> Z -> hash256),
    (forall key len, get_byte_array spooky_short spooky_short_rehash m key len = None) /\
    (forall key, get_uint64_t spooky_short spooky_short_rehash m key = None).
Proof.
  intros Hlen G0 G1 G2. unfold load_mph.
  destruct (calloc heap_has 1 sizeof_mph); cbn [bind]; [|discriminate].
  unfold read_obj.
  rewrite (read_whole _ 8 s G0).
  rewrite (read_whole _ 8 _ G1).
  rewrite (read_whole _ 8 _ G2).
  change (Z.to_nat 8) with 8%nat.
  assert (Hnil : skipn 8 (skipn 8 (skipn 8 s)) = []).
  { apply skipn_all2. rewrite !length_skipn. lia. }
  rewrite Hnil. rewrite read_nil. cbn [length app skipn].
  change (le_combine (le_split 8 0)) with 0.
  cbv zeta. change (mul64 0 8) with 0.
  assert (Hr : forall g, read_array g (calloc heap_has 0 8) 0 [] = ([], [])).
  { intros g. unfold read_array, calloc.
    destruct ((0 * 8 <? two64) && heap_has 0 8); [|reflexivity].
    rewrite read_nil. reflexivity. }
  rewrite !Hr. rewrite read_nil. cbn [length app skipn].
  change (le_combine (le_split 8 0)) with 0.
  change (mul64 0 8) with 0. rewrite !Hr.
  intros H; inversion H; subst m; clear H.
  cbn [edge_offset_and_seed_length edge_offset_and_seed array_length array].
  repeat (split; [reflexivity|]).
  intros sh srh. split.
  - intros key len. unfold get_byte_array.
    destruct ((0 <=? len) && (len <=? Z.of_nat (length key))); cbn [bind]; [|reflexivity].
    destruct (chunk_of _ _) as [c|]; cbn [bind]; [|reflexivity].
    cbn [edge_offset_and_seed].
    replace (idx [] c) with (@None Z); [reflexivity|].
    unfold idx. destruct (c <? 0); [reflexivity|].
    destruct (Z.to_nat c); reflexivity.
  - intros key. unfold get_uint64_t.
    destruct (chunk_of _ _) as [c|]; cbn [bind]; [|reflexivity].
    cbn [edge_offset_and_seed].
    replace (idx [] c) with (@None Z); [reflexivity|].
    unfold idx. destruct (c <? 0); [reflexivity|].
    destruct (Z.to_nat c); reflexivity.
Qed.

End Loaded.

Lemma short_stream_index_is_empty_witness :
  (length [x07; x01; x02] <= 24)%nat /\
  8 <= grant_all 0 8 /\
  load_mph heap_unbounded t_garbage grant_all [x07; x01; x02]
  = Some (Build_mph 131335 33 0 0 [] 0 []) /\
  get_uint64_t toy_hash toy_rehash (Build_mph 131335 33 0 0 [] 0 []) 5 = None.
Proof.
  assert (Hl : load_mph heap_unbounded t_garbage grant_all [x07; x01; x02]
               = Some (Build_mph 131335 33 0 0 [] 0 []))
    by (vm_compute; reflexivity).
  assert (Hg : forall k, 8 <= grant_all k 8) by (intros k; unfold grant_all; lia).
  destruct (short_stream_index_is_empty heap_unbounded t_garbage grant_all
              [x07; x01; x02] _ ltac:(cbn [length]; lia) (Hg 0%nat) (Hg 1%nat) (Hg 2%nat) Hl)
    as (_ & _ & _ & _ & Hall).
  split; [cbn [length]; lia|]. split; [exact (Hg 0%nat)|]. split; [exact Hl|].
  exact (proj2 (Hall toy_hash toy_rehash) 5).
Defined.
